(** * Twitch chat overlay server: a shallow embedding of [index.js]

    The development follows the server file top to bottom: the JavaScript
    primitives the handlers rely on ([toLowerCase], [split], [Number],
    property enumeration), Node's [path] helpers, the file-system calls made
    on the fonts directory, the font validation run at start-up, the
    [/fonts/:font] route, the chat message handler and the Socket.IO relay.

    Strings are sequences of code units below 256 (the Latin-1 range), which
    is what Rocq's [string] holds; console output is not modelled. *)

From Stdlib Require Import Bool Arith NArith ZArith List Ascii String Lia.
From Stdlib Require Import Permutation.
From Stdlib Require Import Sorted.
From Stdlib Require Decimal DecimalString DecimalPos DecimalN.
Import ListNotations.
Local Open Scope string_scope.

(** ** JavaScript strings, numbers and objects *)

Module Js.

(** [String.prototype.toLowerCase] on one code unit: A-Z and the Latin-1
    capitals U+00C0..U+00DE (U+00D7, the multiplication sign, has no case). *)
Definition lowerUnit (c : ascii) : ascii :=
  let n := N_of_ascii c in
  if ((65 <=? n) && (n <=? 90) || (192 <=? n) && (n <=? 222) && negb (n =? 215))%N
  then ascii_of_N (n + 32)
  else c.

Fixpoint toLowerCase (s : string) : string :=
  match s with
  | EmptyString => EmptyString
  | String c r => String (lowerUnit c) (toLowerCase r)
  end.

(** [a.toLowerCase() === b.toLowerCase()] *)
Definition sameLower (a b : string) : bool :=
  String.eqb (toLowerCase a) (toLowerCase b).

(** [s.endsWith(suffix)] *)
Definition endsWith (s suffix : string) : bool :=
  let n := String.length s in
  let k := String.length suffix in
  (k <=? n)%nat && String.eqb (substring (n - k) k s) suffix.

(** [s.split(sep)] for a one-character separator.  The result is never
    empty: a string without the separator comes back as its only piece. *)
Fixpoint split (sep : ascii) (s : string) : list string :=
  match s with
  | EmptyString => [EmptyString]
  | String c r =>
      if Ascii.eqb c sep then EmptyString :: split sep r
      else match split sep r with
           | [] => [String c EmptyString]
           | piece :: pieces => String c piece :: pieces
           end
  end.

(** The Number type.  A finite value is written as the decimal
    [(-1)^neg * mantissa * 10^exp10].  The same type serves for the
    mathematical value of a numeric literal, which can be any such decimal,
    and for the Numbers themselves, which are the IEEE-754 doubles: every
    double is such a decimal, and [Number] returns it in lowest terms, an
    integer with [exp10 = 0] and any other value with a mantissa that is
    not a multiple of ten. *)
Inductive JsNumber : Type :=
| NaN
| Infinity (neg : bool)
| Finite (neg : bool) (mantissa : N) (exp10 : Z).

Definition ofN (n : N) : JsNumber := Finite false n 0.

(** StrWhiteSpaceChar below U+0100: TAB, LF, VT, FF, CR, SP and NBSP. *)
Definition isWhiteSpace (c : ascii) : bool :=
  let n := N_of_ascii c in
  ((9 <=? n) && (n <=? 13) || (n =? 32) || (n =? 160))%N.

Fixpoint trimStart (l : list ascii) : list ascii :=
  match l with
  | c :: r => if isWhiteSpace c then trimStart r else l
  | [] => []
  end.

Definition trim (l : list ascii) : list ascii :=
  rev (trimStart (rev (trimStart l))).

Definition digitValue (base : N) (c : ascii) : option N :=
  let n := N_of_ascii c in
  let v :=
    if ((48 <=? n) && (n <=? 57))%N then Some (n - 48)%N
    else if ((97 <=? n) && (n <=? 102))%N then Some (n - 87)%N
    else if ((65 <=? n) && (n <=? 70))%N then Some (n - 55)%N
    else None in
  match v with
  | Some d => if (d <? base)%N then Some d else None
  | None => None
  end.

(** The longest prefix of digits in [base], most significant first, and
    what follows it. *)
Fixpoint readDigits (base : N) (l : list ascii) : list N * list ascii :=
  match l with
  | c :: r =>
      match digitValue base c with
      | Some d => let (ds, rest) := readDigits base r in (d :: ds, rest)
      | None => ([], l)
      end
  | [] => ([], [])
  end.

Definition digitsValue (base : N) (ds : list N) : N :=
  fold_left (fun acc d => (acc * base + d)%N) ds 0%N.

Definition isNil {A : Type} (l : list A) : bool :=
  match l with [] => true | _ => false end.

(** A non-empty run of digits in [base] that fills the whole of [l]. *)
Definition wholeDigits (base : N) (l : list ascii) : option N :=
  match readDigits base l with
  | (d :: ds, []) => Some (digitsValue base (d :: ds))
  | _ => None
  end.

(** NonDecimalIntegerLiteral: [0x], [0o] or [0b] (either case) followed by
    at least one digit of that base and nothing else.  No sign is allowed. *)
Definition nonDecimalIntegerLiteral (l : list ascii) : option N :=
  match l with
  | z :: p :: r =>
      if Ascii.eqb z "0" then
        if Ascii.eqb p "x" || Ascii.eqb p "X" then wholeDigits 16 r
        else if Ascii.eqb p "o" || Ascii.eqb p "O" then wholeDigits 8 r
        else if Ascii.eqb p "b" || Ascii.eqb p "B" then wholeDigits 2 r
        else None
      else None
  | _ => None
  end.

(** SignedInteger: decimal digits behind an optional sign. *)
Definition signedInteger (l : list ascii) : option Z :=
  match l with
  | s :: t =>
      if Ascii.eqb s "+" then option_map Z.of_N (wholeDigits 10 t)
      else if Ascii.eqb s "-"
           then option_map (fun v => (- Z.of_N v)%Z) (wholeDigits 10 t)
           else option_map Z.of_N (wholeDigits 10 l)
  | [] => None
  end.

(** ExponentPart, optional: nothing, or [e]/[E] and a SignedInteger, up to
    the end of the literal. *)
Definition exponentPart (l : list ascii) : option Z :=
  match l with
  | [] => Some 0%Z
  | c :: r =>
      if Ascii.eqb c "e" || Ascii.eqb c "E" then signedInteger r else None
  end.

(** StrUnsignedDecimalLiteral: [Infinity], or digits with an optional
    fraction and exponent; at least one digit before or after the dot. *)
Definition strUnsignedDecimalLiteral (neg : bool) (l : list ascii) : JsNumber :=
  if String.eqb (string_of_list_ascii l) "Infinity" then Infinity neg
  else
    let (ip, r1) := readDigits 10 l in
    let (fp, r2) :=
      match r1 with
      | c :: r => if Ascii.eqb c "." then readDigits 10 r else ([], r1)
      | [] => ([], r1)
      end in
    if isNil ip && isNil fp then NaN
    else match exponentPart r2 with
         | Some e => Finite neg (digitsValue 10 (ip ++ fp)%list)
                            (e - Z.of_nat (List.length fp))
         | None => NaN
         end.

(** The mathematical value of the StringNumericLiteral [s]: surrounding
    white space is dropped, the empty string is [+0], and what does not
    match the grammar is [NaN]. *)
Definition literalValue (s : string) : JsNumber :=
  match trim (list_ascii_of_string s) with
  | [] => ofN 0
  | c :: r =>
      match nonDecimalIntegerLiteral (c :: r) with
      | Some n => ofN n
      | None =>
          if Ascii.eqb c "+" then strUnsignedDecimalLiteral false r
          else if Ascii.eqb c "-" then strUnsignedDecimalLiteral true r
          else strUnsignedDecimalLiteral false (c :: r)
      end
  end.

(** The number of trailing zero bits. *)
Fixpoint trailingZeros (p : positive) : Z :=
  match p with
  | xO p' => Z.succ (trailingZeros p')
  | _ => 0%Z
  end.

(** The integer [E] with [2^E <= a / b < 2^(E+1)], for positive [a], [b]. *)
Definition floorLog2 (a b : Z) : Z :=
  let E := (Z.log2 a - Z.log2 b)%Z in
  let reached :=
    if (0 <=? E)%Z then (b * 2 ^ E <=? a)%Z else (b <=? a * 2 ^ (- E))%Z in
  if reached then E else (E - 1)%Z.

(** The double [m * 2^q], for [0 <= m], as a decimal in lowest terms. *)
Definition dyadic (neg : bool) (m q : Z) : JsNumber :=
  match m with
  | Zpos p =>
      if (0 <=? q)%Z then Finite neg (Z.to_N (m * 2 ^ q)) 0
      else
        let t := Z.min (trailingZeros p) (- q) in
        Finite neg (Z.to_N (m / 2 ^ t * 5 ^ (- (q + t)))) (q + t)
  | _ => Finite neg 0 0
  end.

(** RoundMVResult: the double nearest to the decimal, a tie going to the
    even significand.  The significand has 53 bits, fewer below [2^-1022]
    where the spacing stays [2^-1074]; from [2^1024] on the result is an
    infinity. *)
Definition roundMVResult (x : JsNumber) : JsNumber :=
  match x with
  | Finite neg (Npos p) e =>
      let m := Zpos p in
      let a := if (0 <=? e)%Z then (m * 10 ^ e)%Z else m in
      let b := if (0 <=? e)%Z then 1%Z else (10 ^ (- e))%Z in
      let q := Z.max (floorLog2 a b - 52) (-1074) in
      let n := if (q <? 0)%Z then (a * 2 ^ (- q))%Z else a in
      let d := if (q <? 0)%Z then b else (b * 2 ^ q)%Z in
      let k := (n / d)%Z in
      let r := (n mod d)%Z in
      let M :=
        if (2 * r <? d)%Z then k
        else if (d <? 2 * r)%Z then (k + 1)%Z
        else if Z.even k then k else (k + 1)%Z in
      if (1024 <=? Z.log2 M + q)%Z then Infinity neg else dyadic neg M q
  | Finite neg N0 _ => Finite neg 0 0
  | _ => x
  end.

(** [Number(s)] for a string argument (StringToNumber): the value of the
    literal, rounded to a double. *)
Definition Number (s : string) : JsNumber :=
  roundMVResult (literalValue s).

(** What an array destructuring pattern binds: the element, or [undefined]
    when the array is too short. *)
Inductive Bound : Type :=
| Undefined
| Num (n : JsNumber).

Definition elementAt (i : nat) (a : list JsNumber) : Bound :=
  match nth_error a i with
  | Some n => Num n
  | None => Undefined
  end.

(** The values an IRC tag can hold once tmi.js has decoded it. *)
Inductive TagValue : Type :=
| TagUndefined
| TagNull
| TagBool (b : bool)
| TagString (s : string).

(** ToBoolean *)
Definition truthy (v : TagValue) : bool :=
  match v with
  | TagUndefined | TagNull => false
  | TagBool b => b
  | TagString s => negb (String.eqb s EmptyString)
  end.

(** [a || b] *)
Definition or (a b : TagValue) : TagValue :=
  if truthy a then a else b.

(** A plain object, as the list of its own enumerable string-keyed
    properties in creation order (keys pairwise distinct). *)
Definition JsObject (V : Type) : Type := list (string * V).

Definition allDecimal (s : string) : bool :=
  forallb (fun c => match digitValue 10 c with Some _ => true | None => false end)
          (list_ascii_of_string s).

(** An array index is the canonical decimal spelling of an integer below
    2^32 - 1. *)
Definition arrayIndex (k : string) : option N :=
  match k with
  | EmptyString => None
  | String c r =>
      if allDecimal k && (negb (Ascii.eqb c "0") || String.eqb r EmptyString) then
        let v := digitsValue 10 (fst (readDigits 10 (list_ascii_of_string k))) in
        if (v <? 4294967295)%N then Some v else None
      else None
  end.

Fixpoint insertByIndex {V : Type} (e : N * (string * V))
         (l : list (N * (string * V))) : list (N * (string * V)) :=
  match l with
  | [] => [e]
  | h :: t => if (fst e <=? fst h)%N then e :: l else h :: insertByIndex e t
  end.

Definition isIndexed {V : Type} (p : string * V) : bool :=
  match arrayIndex (fst p) with Some _ => true | None => false end.

Definition indexed {V : Type} (o : JsObject V) : list (N * (string * V)) :=
  flat_map (fun p => match arrayIndex (fst p) with
                     | Some i => [(i, p)]
                     | None => []
                     end) o.

(** The properties a [for (const k in o)] loop visits, each with the value
    [o[k]]: array-index keys in ascending numeric order, then the other keys
    in creation order. *)
Definition forIn {V : Type} (o : JsObject V) : list (string * V) :=
  (map snd (fold_right insertByIndex [] (indexed o))
   ++ filter (fun p => negb (isIndexed p)) o)%list.

End Js.

(** ** Node's [path] module, POSIX flavour *)

Module Path.

Definition isSlash (c : ascii) : bool := Ascii.eqb c "/".

Definition hasSeparator (p : string) : bool :=
  existsb isSlash (list_ascii_of_string p).

Fixpoint dropWhile {A : Type} (p : A -> bool) (l : list A) : list A :=
  match l with
  | x :: r => if p x then dropWhile p r else l
  | [] => []
  end.

Fixpoint takeWhile {A : Type} (p : A -> bool) (l : list A) : list A :=
  match l with
  | x :: r => if p x then x :: takeWhile p r else []
  | [] => []
  end.

(** The last component of a path, read backwards: trailing separators are
    skipped and the component stops at the separator before it. *)
Definition lastComponentRev (p : string) : list ascii :=
  takeWhile (fun c => negb (isSlash c))
            (dropWhile isSlash (rev (list_ascii_of_string p))).

Definition lastComponent (p : string) : string :=
  string_of_list_ascii (rev (lastComponentRev p)).

(** [path.extname(p)]: from the last dot of the last component to its end;
    empty when there is no dot, when the only dot opens the component, or
    when the component is [..]. *)
Definition extname (p : string) : string :=
  let rc := lastComponentRev p in
  let after := takeWhile (fun c => negb (Ascii.eqb c ".")) rc in
  match dropWhile (fun c => negb (Ascii.eqb c ".")) rc with
  | [] => EmptyString
  | _ :: [] => EmptyString
  | _ :: _ :: _ =>
      if String.eqb (lastComponent p) ".." then EmptyString
      else String "." (string_of_list_ascii (rev after))
  end.

(** [path.basename(p, suffix)]: the last component, without [suffix] when
    the component ends with it and is longer than it.  The comparison with
    the suffix is case-sensitive. *)
Definition basename (p suffix : string) : string :=
  if String.eqb suffix p then EmptyString
  else
    let c := lastComponent p in
    let n := String.length c in
    let k := String.length suffix in
    if (0 <? k)%nat && (k <? n)%nat && Js.endsWith c suffix
    then substring 0 (n - k) c
    else c.

End Path.

(** ** The file system seen through [fs], around the fonts directory *)

Module Fs.

(** The two kinds of path the server builds: [fontsDir] itself and
    [path.join(fontsDir, rel)]. *)
Inductive FsPath : Type :=
| FontsDir
| InFontsDir (rel : string).

(** [listing] is what [readdirSync(fontsDir)] returns, [None] when the
    directory is missing.  These are the two states of the fonts path the
    model has: absent, and a directory that can be listed.  A path that
    exists and cannot be listed (a regular file, a directory without read
    permission) is not among them.  [caseInsensitive] tells whether the
    volume folds case when it looks a name up.  A [rel] that is not a plain
    file name (it holds a separator, or is empty, [.] or [..]) is
    normalised away by [path.join], possibly out of the directory: whether
    such a path exists is left to [elsewhere]. *)
Record FileSystem : Type := {
  listing : option (list string);
  caseInsensitive : bool;
  elsewhere : string -> bool
}.

Inductive Call : Type :=
| ExistsSync (p : FsPath)
| ReaddirSync (p : FsPath).

Inductive Outcome (A : Type) : Type :=
| Returned (a : A)
| Thrown (code : string).
Arguments Returned {A} a.
Arguments Thrown {A} code.

(** A computation reads the file system, returns or throws, and leaves the
    list of [fs] calls it made, oldest first. *)
Definition IO (A : Type) : Type := FileSystem -> Outcome A * list Call.

Definition ret {A : Type} (a : A) : IO A := fun _ => (Returned a, []).

Definition bind {A B : Type} (m : IO A) (f : A -> IO B) : IO B :=
  fun fs =>
    match m fs with
    | (Returned a, t) => let (r, t') := f a fs in (r, (t ++ t')%list)
    | (Thrown e, t) => (Thrown e, t)
    end.

Definition plainName (rel : string) : bool :=
  negb (Path.hasSeparator rel)
  && negb (String.eqb rel EmptyString) && negb (String.eqb rel ".")
  && negb (String.eqb rel "..").

Definition sameName (fs : FileSystem) (a b : string) : bool :=
  if caseInsensitive fs then Js.sameLower a b else String.eqb a b.

(** The directory entry a path names, when it names one. *)
Definition entryOf (fs : FileSystem) (p : FsPath) : option string :=
  match p, listing fs with
  | InFontsDir rel, Some files =>
      if plainName rel then find (sameName fs rel) files else None
  | _, _ => None
  end.

Definition present (fs : FileSystem) (p : FsPath) : bool :=
  match p with
  | FontsDir => match listing fs with Some _ => true | None => false end
  | InFontsDir rel =>
      if plainName rel
      then match entryOf fs p with Some _ => true | None => false end
      else elsewhere fs rel
  end.

Definition existsSync (p : FsPath) : IO bool :=
  fun fs => (Returned (present fs p), [ExistsSync p]).

(** [readdirSync] throws on what is not an existing directory.  Over the
    states of [FileSystem] it returns for [fontsDir] exactly when
    [existsSync] holds of it. *)
Definition readdirSync (p : FsPath) : IO (list string) :=
  fun fs =>
    (match p, listing fs with
     | FontsDir, Some files => Returned files
     | FontsDir, None => Thrown "ENOENT"
     | InFontsDir _, _ => Thrown "ENOTDIR"
     end, [ReaddirSync p]).

End Fs.

Declare Scope io_scope.
Delimit Scope io_scope with io.
Notation "x <- m ;; k" := (Fs.bind m (fun x => k))
  (at level 61, m at next level, right associativity) : io_scope.

(** ** Fonts: start-up validation and the [/fonts/:font] route *)

Module Fonts.
Import Js Path Fs.
Local Open Scope io_scope.

Definition extensions : list string := [".ttf"; ".otf"; ".woff"; ".woff2"].

(** [list.includes(s)] *)
Definition includes (l : list string) (s : string) : bool :=
  existsb (String.eqb s) l.

(** [/\.(ttf|otf|woff|woff2)$/i.test(f)] *)
Definition isFontFile (f : string) : bool :=
  existsb (endsWith (toLowerCase f)) extensions.

(** [validateFont(font, type)], lines 88-110; [type] only feeds the log. *)
Definition validateFont (font : string) : IO bool :=
  if String.eqb (toLowerCase font) "arial" then ret true
  else
    there <- existsSync FontsDir ;;
    if negb there then ret false
    else
      files <- readdirSync FontsDir ;;
      let fontFiles := filter isFontFile files in
      let fontNames := map (fun f => basename f (extname f)) fontFiles in
      let found := existsb (fun name => sameLower name font) fontNames in
      if negb found then ret false else ret true.

(** Lines 112-117: an invalid font is replaced by Arial. *)
Definition checkedFont (font : string) : IO string :=
  valid <- validateFont font ;;
  ret (if valid then font else "Arial").

(** Lines 153-157: strip any extension the client may have added. *)
Definition stripExtension (fontName : string) : string :=
  let ext := toLowerCase (extname fontName) in
  if includes extensions ext then basename fontName ext else fontName.

(** The loop of lines 163-176 over the extensions still to try; the result
    is [fontPath], [None] standing for [null]. *)
Fixpoint tryExtensions (fontName : string) (exts : list string)
  : IO (option FsPath) :=
  match exts with
  | [] => ret None
  | e :: rest =>
      let candidate := InFontsDir (fontName ++ e) in
      hit <- existsSync candidate ;;
      if hit then ret (Some candidate)
      else
        there <- existsSync FontsDir ;;
        files <- (if there then readdirSync FontsDir else ret []) ;;
        match find (fun f => sameLower f (fontName ++ e)) files with
        | Some m => ret (Some (InFontsDir m))
        | None => tryExtensions fontName rest
        end
  end.

Definition mimeMap : list (string * string) :=
  [(".ttf", "font/ttf"); (".otf", "font/otf");
   (".woff", "font/woff"); (".woff2", "font/woff2")].

Definition assoc (k : string) (m : list (string * string)) : option string :=
  option_map snd (find (fun p => String.eqb (fst p) k) m).

Definition relOf (p : FsPath) : string :=
  match p with
  | FontsDir => "fonts"
  | InFontsDir rel => rel
  end.

Inductive Response : Type :=
| Stream (contentType : string) (file : FsPath)
| Status404 (body : string).

(** The handler of [app.get('/fonts/:font')], lines 148-193, applied to
    [req.params.font]. *)
Definition fontsRoute (font : string) : IO Response :=
  let fontName := stripExtension font in
  fontPath <- tryExtensions fontName extensions ;;
  match fontPath with
  | Some p =>
      let mime :=
        match assoc (toLowerCase (extname (relOf p))) mimeMap with
        | Some m => m
        | None => "application/octet-stream"
        end in
      ret (Stream mime p)
  | None => ret (Status404 "Font not found")
  end.

(** The file a response streams, as a directory entry. *)
Definition served (fs : FileSystem) (r : Response) : option string :=
  match r with
  | Stream _ p => entryOf fs p
  | Status404 _ => None
  end.

End Fonts.

(** ** The first version of the route ([src/unnamed/part_000], lines 101-118) *)

Module Legacy.
Import Js Path Fs.
Local Open Scope io_scope.

(** The requested name is joined to the directory as it is; the route is
    only registered when the directory exists at start-up, and Express
    answers 404 on its own otherwise. *)
Definition fontsRoute (registered : bool) (font : string) : IO Fonts.Response :=
  if negb registered then ret (Fonts.Status404 "Cannot GET")
  else
    let fontPath := InFontsDir font in
    let ext := toLowerCase (extname font) in
    hit <- existsSync fontPath ;;
    match hit, Fonts.assoc ext Fonts.mimeMap with
    | true, Some mime => ret (Fonts.Stream mime fontPath)
    | _, _ => ret (Fonts.Status404 "Font not found")
    end.

End Legacy.

(** ** The chat message handler, lines 210-228 *)

Module Chat.
Import Js.

(** The tags the handler reads.  [tagEmotes] is [None] when [tags.emotes]
    is [undefined] or [null]; an object, even an empty one, is truthy. *)
Record Tags : Type := {
  displayName : TagValue;
  tagColor : TagValue;
  tagEmotes : option (JsObject (list string))
}.

Record EmoteSpan : Type := {
  id : string;
  start : Bound;
  end_ : Bound
}.

Record ChatEvent : Type := {
  username : TagValue;
  message : string;
  color : TagValue;
  emotes : list EmoteSpan
}.

(** [const [start, end] = position.split('-').map(Number)] *)
Definition parsePosition (position : string) : Bound * Bound :=
  let numbers := map Number (split "-" position) in
  (elementAt 0 numbers, elementAt 1 numbers).

(** [tags.emotes[emoteId].forEach(position => ... emotes.push(...))] *)
Definition pushPositions (emoteId : string) (positions : list string)
           (emotes : list EmoteSpan) : list EmoteSpan :=
  fold_left
    (fun acc position =>
       let (s, e) := parsePosition position in
       (acc ++ [{| id := emoteId; start := s; end_ := e |}])%list)
    positions emotes.

(** Lines 211-220: the array [emotes] after the loops. *)
Definition collectEmotes (tagEmotes : option (JsObject (list string)))
  : list EmoteSpan :=
  match tagEmotes with
  | None => []
  | Some o =>
      fold_left (fun acc p => pushPositions (fst p) (snd p) acc) (forIn o) []
  end.

Inductive Emission : Type :=
| IoEmit (event : string) (payload : ChatEvent).

(** [client.on('message', (chan, tags, message, self) => ...)] *)
Definition onMessage (chan : string) (tags : Tags) (message : string)
           (self : bool) : list Emission :=
  let emotes := collectEmotes (tagEmotes tags) in
  [IoEmit "chatMessage"
     {| username := or (displayName tags) (TagString "Anonymous");
        message := message;
        color := or (tagColor tags) (TagString "#ffffff");
        emotes := emotes |}].

End Chat.

(** ** The Socket.IO relay, lines 222-239 *)

Module Relay.
Import Js Chat.

Record SessionConfig : Type := {
  viewportHeight : JsNumber;
  messageSeconds : JsNumber;
  messageFont : string;
  namefont : string
}.

(** What travels to a client: a ['settings'] or a ['chatMessage'] event. *)
Inductive Packet : Type :=
| Settings (cfg : SessionConfig)
| ChatMessage (ev : ChatEvent).

(** The namespace: the sockets now connected, the next socket id to hand
    out, and every packet sent so far with its addressee, oldest first. *)
Record Server : Type := {
  connected : list nat;
  nextId : nat;
  wire : list (nat * Packet)
}.

(** What the event loop runs, one callback at a time: Socket.IO accepting a
    client (it registers the socket, then fires ['connection']), a socket
    closing, and tmi.js delivering a chat message. *)
Inductive Event : Type :=
| Connection
| Disconnect (sid : nat)
| Message (chan : string) (tags : Tags) (message : string) (self : bool).

Definition initial : Server :=
  {| connected := []; nextId := 0; wire := [] |}.

(** [io.emit]: one copy to each connected socket. *)
Definition ioEmit (sockets : list nat) (p : Packet) : list (nat * Packet) :=
  map (fun sid => (sid, p)) sockets.

Section WithConfig.

Variable config : SessionConfig.

(** [io.on('connection', socket => socket.emit('settings', {...}))] *)
Definition onConnection (sid : nat) : list (nat * Packet) :=
  [(sid, Settings config)].

Definition step (s : Server) (e : Event) : Server :=
  match e with
  | Connection =>
      let sid := nextId s in
      {| connected := connected s ++ [sid];
         nextId := S sid;
         wire := wire s ++ onConnection sid |}
  | Disconnect sid =>
      {| connected := filter (fun x => negb (Nat.eqb x sid)) (connected s);
         nextId := nextId s;
         wire := wire s |}
  | Message chan tags message self =>
      {| connected := connected s;
         nextId := nextId s;
         wire := wire s ++
                 flat_map (fun em => match em with
                                     | IoEmit _ ev => ioEmit (connected s) (ChatMessage ev)
                                     end)
                          (onMessage chan tags message self) |}
  end.

Definition run (events : list Event) : Server :=
  fold_left step events initial.

End WithConfig.

(** The packets one socket has been sent, in order. *)
Definition received (sid : nat) (s : Server) : list Packet :=
  map snd (filter (fun p => Nat.eqb (fst p) sid) (wire s)).

Definition isSettings (p : Packet) : bool :=
  match p with Settings _ => true | ChatMessage _ => false end.

End Relay.

(** ** Reference definitions used by the statements *)

Module Ref.
Import Js Chat.

(** The span one position token stands for. *)
Definition spanOf (emoteId position : string) : EmoteSpan :=
  {| id := emoteId;
     start := fst (parsePosition position);
     end_ := snd (parsePosition position) |}.

(** One span per token, ids in the given order and, under one id, tokens
    in the given order. *)
Definition spansInOrder (entries : list (string * list string))
  : list EmoteSpan :=
  flat_map (fun p => map (spanOf (fst p)) (snd p)) entries.

Definition tokenCount (entries : list (string * list string)) : nat :=
  list_sum (map (fun p => List.length (snd p)) entries).

(** The characters a StringNumericLiteral can be made of: white space,
    hexadecimal digits (they include the exponent marks and the binary
    prefix), signs, the dot, the other radix prefixes and the letters of
    [Infinity]. *)
Definition literalChar (c : ascii) : bool :=
  isWhiteSpace c
  || match digitValue 16 c with Some _ => true | None => false end
  || existsb (Ascii.eqb c) (list_ascii_of_string "+-.xXoOInity").

(** A field with a character no numeric literal contains. *)
Definition foreign (field : string) : bool :=
  existsb (fun c => negb (literalChar c)) (list_ascii_of_string field).

(** A field whose first character after leading white space cannot open a
    numeric literal: it is not a decimal digit, a sign, the dot or the [I]
    of [Infinity]. *)
Definition badStart (field : string) : bool :=
  match trimStart (list_ascii_of_string field) with
  | c :: _ =>
      negb (match digitValue 10 c with Some _ => true | None => false end
            || existsb (Ascii.eqb c) (list_ascii_of_string "+-.I"))
  | [] => false
  end.

(** A field made of white space only, the empty field included. *)
Definition blank (field : string) : bool :=
  forallb isWhiteSpace (list_ascii_of_string field).

(** A position field of the documented format: one or more ASCII digits. *)
Definition digitString (field : string) : bool :=
  negb (String.eqb field EmptyString) && allDecimal field.

(** The number a digit string spells. *)
Definition decimalValue (field : string) : N :=
  digitsValue 10 (fst (readDigits 10 (list_ascii_of_string field))).

Definition isNotFound (r : Fs.Outcome Fonts.Response) : bool :=
  match r with
  | Fs.Returned (Fonts.Status404 _) => true
  | _ => false
  end.

(** What holds of the namespace after every callback: ids in use are below
    [nextId], a socket not yet accepted has been sent nothing, and an
    accepted one has been sent the settings and then chat messages only. *)
Definition handshaken (config : Relay.SessionConfig) (s : Relay.Server)
  : Prop :=
  (forall sid, In sid (Relay.connected s) -> sid < Relay.nextId s)
  /\ (forall sid, Relay.nextId s <= sid -> Relay.received sid s = [])
  /\ (forall sid, sid < Relay.nextId s ->
        exists chats,
          Relay.received sid s
          = Relay.Settings config :: map Relay.ChatMessage chats).

(** The entries of the fonts directory, none when it is missing. *)
Definition filesOf (fs : Fs.FileSystem) : list string :=
  match Fs.listing fs with
  | Some files => files
  | None => []
  end.

End Ref.

(** ** Start-up: the [check] callback of yargs, lines 71-123, and the
    constants of lines 128-133 *)

Module Startup.
Import Js Fs Fonts.
Local Open Scope io_scope.

Record Argv : Type := {
  port : JsNumber;
  username : string;
  height : JsNumber;
  seconds : JsNumber;
  font : string;
  namefont : string
}.

Definition isWordChar (c : ascii) : bool :=
  let n := N_of_ascii c in
  ((97 <=? n) && (n <=? 122) || (65 <=? n) && (n <=? 90)
   || (48 <=? n) && (n <=? 57) || (n =? 95))%N.

(** [/^[a-zA-Z0-9_]{3,25}$/.test(u)] *)
Definition usernamePattern (u : string) : bool :=
  let n := String.length u in
  (3 <=? n)%nat && (n <=? 25)%nat
  && forallb isWordChar (list_ascii_of_string u).

(** [throw new Error(message)] *)
Definition throw {A : Type} (message : string) : IO A :=
  fun _ => (Thrown message, []).

Definition newline : string := String (ascii_of_nat 10) EmptyString.

Section Comparisons.

(** [a < b] and [a <= b] on Numbers are taken as given. *)
Variable lt : JsNumber -> JsNumber -> bool.
Variable le : JsNumber -> JsNumber -> bool.

(** The array [errors] after lines 74-85; [a > b] is [b < a]. *)
Definition parameterErrors (argv : Argv) : list string :=
  ((if lt (port argv) (ofN 1) || lt (ofN 65535) (port argv)
    then ["Port must be between 1 and 65535"] else [])
   ++ (if String.eqb (username argv) EmptyString
          || negb (usernamePattern (username argv))
       then ["Username must be a valid Twitch channel name (3-25 alphanumeric characters or underscores)"]
       else [])
   ++ (if lt (height argv) (ofN 100) || lt (ofN 2160) (height argv)
       then ["Height must be between 100 and 2160 pixels"] else [])
   ++ (if le (seconds argv) (ofN 0)
       then ["Seconds must be a positive number"] else []))%list.

(** The callback: both fonts are validated and replaced before the errors
    are looked at; what comes back is [argv] as the callback leaves it. *)
Definition check (argv : Argv) : IO Argv :=
  let errors := parameterErrors argv in
  fontValid <- validateFont (font argv) ;;
  namefontValid <- validateFont (namefont argv) ;;
  let argv' :=
    {| port := port argv;
       username := username argv;
       height := height argv;
       seconds := seconds argv;
       font := if fontValid then font argv else "Arial";
       namefont := if namefontValid then namefont argv else "Arial" |} in
  if (0 <? List.length errors)%nat
  then throw (String.concat newline errors)
  else ret argv'.

End Comparisons.

(** Lines 130-133 and 233-238: the settings sent to every client. *)
Definition settingsOf (argv : Argv) : Relay.SessionConfig :=
  {| Relay.viewportHeight := height argv;
     Relay.messageSeconds := seconds argv;
     Relay.messageFont := font argv;
     Relay.namefont := namefont argv |}.

End Startup.

(** ** Further notions used by the statements *)

Module Obs.
Import Js.

(** The chat events a run of callbacks publishes, in order. *)
Definition published (events : list Relay.Event) : list Chat.ChatEvent :=
  flat_map
    (fun e => match e with
              | Relay.Message chan tags message self =>
                  map (fun em => match em with Chat.IoEmit _ ev => ev end)
                      (Chat.onMessage chan tags message self)
              | _ => []
              end) events.

Definition isConnected (sid : nat) (s : Relay.Server) : bool :=
  existsb (Nat.eqb sid) (Relay.connected s).

(** Ids in use are distinct and below the next one to hand out. *)
Definition tidy (s : Relay.Server) : Prop :=
  NoDup (Relay.connected s)
  /\ forall sid, In sid (Relay.connected s) -> sid < Relay.nextId s.

Definition noHyphen (field : string) : bool :=
  forallb (fun c => negb (Ascii.eqb c "-")) (list_ascii_of_string field).

(** Every entry of the fonts directory is a plain file name, as the names
    [readdirSync] returns are. *)
Definition plainListing (fs : Fs.FileSystem) : Prop :=
  forall f, In f (Ref.filesOf fs) -> Fs.plainName f = true.

Definition isStream (r : Fs.Outcome Fonts.Response) : bool :=
  match r with
  | Fs.Returned (Fonts.Stream _ _) => true
  | _ => false
  end.

(** What follows the dot of an extension: no dot and no separator. *)
Definition dotFree (t : string) : bool :=
  forallb (fun c => negb (Ascii.eqb c ".") && negb (Path.isSlash c))
          (list_ascii_of_string t).

(** The fonts path is absent, or it is a directory [readdirSync] lists.
    Left out is a path that exists and cannot be listed, where
    [existsSync] holds and [readdirSync] throws. *)
Definition absentOrListable (fs : Fs.FileSystem) : Prop :=
  Fs.present fs Fs.FontsDir = false
  \/ exists files,
       fst (Fs.readdirSync Fs.FontsDir fs) = Fs.Returned files.

(** The usual decimal spelling of a natural number. *)
Definition decimal (n : N) : string :=
  DecimalString.NilZero.string_of_uint (N.to_uint n).

(** The array index a key spells, 0 for the keys that spell none. *)
Definition indexOf {V : Type} (p : string * V) : N :=
  match arrayIndex (fst p) with
  | Some i => i
  | None => 0%N
  end.

End Obs.

(** * Properties *)

(** ** Chat events *)

Lemma pushPositions_spec emoteId positions acc :
  Chat.pushPositions emoteId positions acc
  = (acc ++ map (Ref.spanOf emoteId) positions)%list.
Proof.
  unfold Chat.pushPositions.
  revert acc; induction positions as [|p ps IH]; intros acc; simpl.
  - now rewrite app_nil_r.
  - rewrite IH. unfold Ref.spanOf, Chat.parsePosition; simpl.
    now rewrite <- app_assoc.
Qed.

Lemma collect_loop_spec entries acc :
  fold_left (fun a p => Chat.pushPositions (fst p) (snd p) a) entries acc
  = (acc ++ Ref.spansInOrder entries)%list.
Proof.
  revert acc; induction entries as [|[k ps] es IH]; intros acc; simpl.
  - now rewrite app_nil_r.
  - rewrite IH, pushPositions_spec. simpl. now rewrite <- app_assoc.
Qed.

Lemma spansInOrder_length entries :
  List.length (Ref.spansInOrder entries) = Ref.tokenCount entries.
Proof.
  unfold Ref.spansInOrder, Ref.tokenCount.
  induction entries as [|[k ps] es IH]; simpl; [reflexivity|].
  now rewrite length_app, length_map, IH.
Qed.

(** *** Property enumeration *)

Section ForIn.

Context {V : Type}.

Lemma insertByIndex_perm (e : N * (string * V)) l :
  Permutation (Js.insertByIndex e l) (e :: l).
Proof.
  induction l as [|h t IH]; simpl; [apply Permutation_refl|].
  destruct (fst e <=? fst h)%N; [apply Permutation_refl|].
  rewrite IH. apply perm_swap.
Qed.

Lemma sorted_indexed_perm (l : list (N * (string * V))) :
  Permutation (fold_right Js.insertByIndex [] l) l.
Proof.
  induction l as [|h t IH]; simpl; [apply perm_nil|].
  rewrite insertByIndex_perm. now apply perm_skip.
Qed.

Lemma indexed_entries (o : Js.JsObject V) :
  map snd (Js.indexed o) = filter Js.isIndexed o.
Proof.
  unfold Js.indexed, Js.isIndexed.
  induction o as [|p o IH]; simpl; [reflexivity|].
  destruct (Js.arrayIndex (fst p)); simpl; now rewrite IH.
Qed.

Lemma filter_split_perm (f : string * V -> bool) (o : list (string * V)) :
  Permutation (filter f o ++ filter (fun p => negb (f p)) o) o.
Proof.
  induction o as [|p o IH]; simpl; [apply perm_nil|].
  destruct (f p); simpl.
  - now apply perm_skip.
  - apply Permutation_sym, Permutation_cons_app, Permutation_sym, IH.
Qed.

(** A [for ... in] loop visits every property, each once. *)
Lemma forIn_visits_each_once (o : Js.JsObject V) :
  Permutation (Js.forIn o) o.
Proof.
  unfold Js.forIn.
  rewrite (Permutation_map snd (sorted_indexed_perm (Js.indexed o))).
  rewrite indexed_entries.
  rewrite <- (filter_split_perm Js.isIndexed o) at 3.
  apply Permutation_refl.
Qed.

(** An object whose keys are not array indices is visited in creation
    order. *)
Lemma forIn_creation_order (o : Js.JsObject V) :
  (forall p, In p o -> Js.arrayIndex (fst p) = None) -> Js.forIn o = o.
Proof.
  intros H. unfold Js.forIn, Js.indexed.
  assert (E : flat_map (fun p => match Js.arrayIndex (fst p) with
                                 | Some i => [(i, p)]
                                 | None => []
                                 end) o = []).
  { induction o as [|p o IH]; simpl; [reflexivity|].
    rewrite (H p) by now left. apply IH. intros q Hq. apply H. now right. }
  rewrite E. simpl. clear E.
  induction o as [|p o IH]; simpl; [reflexivity|].
  unfold Js.isIndexed at 1. rewrite (H p) by now left. simpl. f_equal.
  apply IH. intros q Hq. apply H. now right.
Qed.

End ForIn.

Lemma tokenCount_perm a b :
  Permutation a b -> Ref.tokenCount a = Ref.tokenCount b.
Proof.
  unfold Ref.tokenCount.
  induction 1; simpl; lia.
Qed.

(** C4. The emote array lists one span per position token, following the
    [for ... in] order of the ids and, under each id, the order of its
    tokens; the loop visits each id of the mapping once, so there are as
    many spans as tokens: nothing is sorted or merged.  For [{ "25": ["0-4", "10-14"] }]
    that is the two spans (0,4) and (10,14) of id 25, and without an emotes
    tag the array is empty. *)
Theorem collectEmotes_keeps_iteration_order :
  (forall o, Chat.collectEmotes (Some o) = Ref.spansInOrder (Js.forIn o))
  /\ (forall o : Js.JsObject (list string), Permutation (Js.forIn o) o)
  /\ (forall o, List.length (Chat.collectEmotes (Some o))
                = Ref.tokenCount o)
  /\ Chat.collectEmotes (Some [("25", ["0-4"; "10-14"])])
     = [ {| Chat.id := "25"; Chat.start := Js.Num (Js.ofN 0);
            Chat.end_ := Js.Num (Js.ofN 4) |};
         {| Chat.id := "25"; Chat.start := Js.Num (Js.ofN 10);
            Chat.end_ := Js.Num (Js.ofN 14) |} ]
  /\ Chat.collectEmotes None = [].
Proof.
  assert (H : forall o, Chat.collectEmotes (Some o)
                        = Ref.spansInOrder (Js.forIn o)).
  { intros o. unfold Chat.collectEmotes. now rewrite collect_loop_spec. }
  repeat split.
  - exact H.
  - apply forIn_visits_each_once.
  - intros o. rewrite H, spansInOrder_length.
    apply tokenCount_perm, forIn_visits_each_once.
Qed.

Example bob_message_event :
  Chat.onMessage "mychannel"
    {| Chat.displayName := Js.TagString "Bob";
       Chat.tagColor := Js.TagString "#ff0000";
       Chat.tagEmotes := Some [("1", ["0-2"])] |} "LUL hi" false
  = [Chat.IoEmit "chatMessage"
       {| Chat.username := Js.TagString "Bob";
          Chat.message := "LUL hi";
          Chat.color := Js.TagString "#ff0000";
          Chat.emotes := [ {| Chat.id := "1"; Chat.start := Js.Num (Js.ofN 0);
                              Chat.end_ := Js.Num (Js.ofN 2) |} ] |}].
Proof. reflexivity. Qed.

(** Integer-like ids come first, in ascending order, whatever the order
    in which tmi.js created them. *)
Example forIn_numeric_ids_first :
  Js.forIn [("emotesv2_x", ["0-2"]); ("25", ["4-8"]); ("3", ["10-12"])]
  = [("3", ["10-12"]); ("25", ["4-8"]); ("emotesv2_x", ["0-2"])].
Proof. reflexivity. Qed.

(** C3. Each message notification emits exactly one [chatMessage] event;
    its username is "Anonymous" when the display-name tag is absent, its
    color is "#ffffff" when the color tag is absent or empty, and its
    message is the text received. *)
Theorem onMessage_one_event_with_fallbacks chan tags message self :
  exists ev,
    Chat.onMessage chan tags message self = [Chat.IoEmit "chatMessage" ev]
    /\ (Chat.displayName tags = Js.TagUndefined
        -> Chat.username ev = Js.TagString "Anonymous")
    /\ (Chat.tagColor tags = Js.TagUndefined
        \/ Chat.tagColor tags = Js.TagString EmptyString
        -> Chat.color ev = Js.TagString "#ffffff")
    /\ Chat.message ev = message.
Proof.
  eexists; split; [reflexivity|]; simpl.
  split; [|split]; [| |reflexivity].
  - intros ->. reflexivity.
  - intros [-> | ->]; reflexivity.
Qed.

Lemma onMessage_one_event_with_fallbacks_witness :
  exists ev,
    Chat.onMessage "mychannel"
      {| Chat.displayName := Js.TagUndefined;
         Chat.tagColor := Js.TagString EmptyString;
         Chat.tagEmotes := None |} "LUL hi" false
    = [Chat.IoEmit "chatMessage" ev]
    /\ Chat.username ev = Js.TagString "Anonymous"
    /\ Chat.color ev = Js.TagString "#ffffff"
    /\ Chat.message ev = "LUL hi".
Proof.
  destruct (onMessage_one_event_with_fallbacks "mychannel"
              {| Chat.displayName := Js.TagUndefined;
                 Chat.tagColor := Js.TagString EmptyString;
                 Chat.tagEmotes := None |} "LUL hi" false)
    as (ev & Hev & Hname & Hcolor & Hmsg).
  exists ev. split; [exact Hev|]. split; [|split].
  - apply Hname. reflexivity.
  - apply Hcolor. right. reflexivity.
  - exact Hmsg.
Defined.

(** C9. An empty display name is falsy, so it too is replaced by
    "Anonymous". *)
Theorem onMessage_empty_display_name chan c e message self :
  Chat.onMessage chan
    {| Chat.displayName := Js.TagString EmptyString;
       Chat.tagColor := c; Chat.tagEmotes := e |} message self
  = [Chat.IoEmit "chatMessage"
       {| Chat.username := Js.TagString "Anonymous";
          Chat.message := message;
          Chat.color := Js.or c (Js.TagString "#ffffff");
          Chat.emotes := Chat.collectEmotes e |}].
Proof. reflexivity. Qed.

(** C10. The event that is broadcast does not depend on the [self] flag of
    the notification (nor on the channel name): an echo is relayed like any
    other message, to the same sockets. *)
Theorem onMessage_ignores_self cfg s chan tags message self self' :
  Chat.onMessage chan tags message self
  = Chat.onMessage chan tags message self'
  /\ Relay.step cfg s (Relay.Message chan tags message self)
     = Relay.step cfg s (Relay.Message chan tags message self').
Proof. split; reflexivity. Qed.

(** ** The relay *)

Section RelayFacts.

Variable config : Relay.SessionConfig.

Lemma received_app sid c n w c' n' extra :
  Relay.received sid
    {| Relay.connected := c'; Relay.nextId := n'; Relay.wire := w ++ extra |}
  = (Relay.received sid
       {| Relay.connected := c; Relay.nextId := n; Relay.wire := w |}
     ++ map snd (filter (fun p => Nat.eqb (fst p) sid) extra))%list.
Proof.
  unfold Relay.received; simpl. now rewrite filter_app, map_app.
Qed.

Lemma ioEmit_received sid sockets p :
  map snd (filter (fun q => Nat.eqb (fst q) sid) (Relay.ioEmit sockets p))
  = map (fun _ => p) (filter (fun x => Nat.eqb x sid) sockets).
Proof.
  unfold Relay.ioEmit.
  induction sockets as [|x xs IH]; simpl; [reflexivity|].
  destruct (Nat.eqb x sid); simpl; now rewrite IH.
Qed.

Lemma not_connected_filter sid sockets :
  ~ In sid sockets -> filter (fun x => Nat.eqb x sid) sockets = [].
Proof.
  induction sockets as [|x xs IH]; simpl; intros H; [reflexivity|].
  destruct (Nat.eqb_spec x sid) as [->|Hne].
  - exfalso. apply H. now left.
  - apply IH. intros Hin. apply H. now right.
Qed.

Lemma initial_handshaken : Ref.handshaken config Relay.initial.
Proof.
  repeat split; simpl; intros; try reflexivity; try contradiction; lia.
Qed.

Lemma step_handshaken s e :
  Ref.handshaken config s -> Ref.handshaken config (Relay.step config s e).
Proof.
  destruct s as [c n w]. intros (Hc & Hnone & Hsome); simpl in *.
  destruct e as [|sid0|chan tags message self]; simpl.
  - (* Connection *)
    repeat split; simpl.
    + intros sid Hin. apply in_app_or in Hin as [Hin|[<-|[]]]; [|lia].
      specialize (Hc sid Hin). lia.
    + intros sid Hle. rewrite (received_app sid c n). simpl.
      destruct (Nat.eqb_spec n sid); [lia|]. simpl.
      rewrite app_nil_r. apply Hnone. lia.
    + intros sid Hlt. rewrite (received_app sid c n). simpl.
      destruct (Nat.eqb_spec n sid) as [<-|Hne]; simpl.
      * rewrite (Hnone n) by lia. now exists [].
      * rewrite app_nil_r. apply Hsome. lia.
  - (* Disconnect *)
    repeat split; simpl.
    + intros sid Hin. apply filter_In in Hin as [Hin _]. now apply Hc.
    + exact Hnone.
    + exact Hsome.
  - (* Message *)
    rewrite app_nil_r.
    repeat split; simpl.
    + exact Hc.
    + intros sid Hle. rewrite (received_app sid c n), ioEmit_received.
      rewrite not_connected_filter.
      * rewrite app_nil_r. now apply Hnone.
      * intros Hin. specialize (Hc sid Hin). lia.
    + intros sid Hlt. rewrite (received_app sid c n), ioEmit_received.
      destruct (Hsome sid Hlt) as [chats ->].
      eexists (chats ++ map (fun _ => _) (filter (fun x => Nat.eqb x sid) c))%list.
      rewrite map_app, map_map. reflexivity.
Qed.

Lemma run_snoc events e :
  Relay.run config (events ++ [e])
  = Relay.step config (Relay.run config events) e.
Proof. unfold Relay.run. now rewrite fold_left_app. Qed.

Lemma run_handshaken events :
  Ref.handshaken config (Relay.run config events).
Proof.
  induction events as [|e events IH] using rev_ind.
  - apply initial_handshaken.
  - rewrite run_snoc. now apply step_handshaken.
Qed.

(** C6. Whatever callbacks have run, accepting a client sends it the
    settings at once, as the first packet it gets, and every socket accepted
    so far has been sent the settings first and chat messages only after:
    one settings push per connection, ahead of every chat event. *)
Theorem settings_pushed_once_and_first events :
  Relay.received (Relay.nextId (Relay.run config events))
    (Relay.step config (Relay.run config events) Relay.Connection)
  = [Relay.Settings config]
  /\ forall sid,
      sid < Relay.nextId (Relay.run config events) ->
      exists chats,
        Relay.received sid (Relay.run config events)
        = Relay.Settings config :: map Relay.ChatMessage chats
        /\ List.length (filter Relay.isSettings
                          (Relay.received sid (Relay.run config events))) = 1.
Proof.
  pose proof (run_handshaken events) as (Hc & Hnone & Hsome).
  split.
  - destruct (Relay.run config events) as [c n w]; simpl in *.
    rewrite (received_app n c n). simpl.
    rewrite Nat.eqb_refl. simpl. now rewrite (Hnone n) by lia.
  - intros sid Hlt. destruct (Hsome sid Hlt) as [chats Heq].
    exists chats. split; [exact Heq|]. rewrite Heq. simpl. f_equal.
    clear. induction chats as [|ev chats IH]; simpl; auto.
Qed.

End RelayFacts.

Lemma settings_pushed_once_and_first_witness :
  let cfg := {| Relay.viewportHeight := Js.ofN 1080;
                Relay.messageSeconds := Js.ofN 30;
                Relay.messageFont := "Arial";
                Relay.namefont := "Arial" |} in
  let bob := {| Chat.displayName := Js.TagString "Bob";
                Chat.tagColor := Js.TagString "#ff0000";
                Chat.tagEmotes := Some [("1", ["0-2"])] |} in
  let events := [Relay.Connection;
                 Relay.Message "mychannel" bob "LUL hi" false;
                 Relay.Connection;
                 Relay.Message "mychannel" bob "again" false] in
  1 < Relay.nextId (Relay.run cfg events)
  /\ exists chats,
      Relay.received 1 (Relay.run cfg events)
      = Relay.Settings cfg :: map Relay.ChatMessage chats
      /\ List.length (filter Relay.isSettings
                        (Relay.received 1 (Relay.run cfg events))) = 1.
Proof.
  intros cfg bob events.
  assert (H : 1 < Relay.nextId (Relay.run cfg events)) by (vm_compute; lia).
  split; [exact H|].
  exact (proj2 (settings_pushed_once_and_first cfg events) 1 H).
Defined.

(** ** Fonts *)

Lemma sameLower_refl a : Js.sameLower a a = true.
Proof. apply String.eqb_refl. Qed.

Lemma sameLower_sym a b : Js.sameLower a b = Js.sameLower b a.
Proof. apply String.eqb_sym. Qed.

Lemma find_all_false {A : Type} (p : A -> bool) (l : list A) :
  (forall x, In x l -> p x = false) -> find p l = None.
Proof.
  induction l as [|x xs IH]; simpl; intros H; [reflexivity|].
  rewrite (H x) by now left. apply IH. intros y Hy. apply H. now right.
Qed.

Lemma find_one_true {A : Type} (p : A -> bool) (l : list A) x :
  In x l -> p x = true -> exists y, find p l = Some y.
Proof.
  induction l as [|z zs IH]; simpl; intros Hin Hp; [contradiction|].
  destruct (p z) eqn:Hz; [now exists z|].
  destruct Hin as [->|Hin]; [congruence|]. now apply IH.
Qed.

(** A name the volume takes for [x] is [x] up to case. *)
Lemma sameName_sameLower fs x f :
  Fs.sameName fs x f = true -> Js.sameLower f x = true.
Proof.
  unfold Fs.sameName. destruct (Fs.caseInsensitive fs); intros H.
  - now rewrite sameLower_sym.
  - apply String.eqb_eq in H as ->. apply sameLower_refl.
Qed.

(** A plain name that matches no entry, even up to case, does not exist. *)
Lemma present_plain_false fs x :
  Fs.plainName x = true ->
  (forall f, In f (Ref.filesOf fs) -> Js.sameLower f x = false) ->
  Fs.present fs (Fs.InFontsDir x) = false.
Proof.
  intros Hplain Hnone. unfold Fs.present, Fs.entryOf, Ref.filesOf in *.
  rewrite Hplain. destruct (Fs.listing fs) as [files|]; [|reflexivity].
  rewrite find_all_false; [reflexivity|].
  intros f Hin. destruct (Fs.sameName fs x f) eqn:E; [|reflexivity].
  apply sameName_sameLower in E. rewrite Hnone in E by assumption.
  discriminate.
Qed.

(** One turn of the loop, result only. *)
Lemma tryExtensions_step fs fontName e rest :
  fst (Fonts.tryExtensions fontName (e :: rest) fs)
  = if Fs.present fs (Fs.InFontsDir (fontName ++ e))
    then Fs.Returned (Some (Fs.InFontsDir (fontName ++ e)))
    else match find (fun f => Js.sameLower f (fontName ++ e)) (Ref.filesOf fs) with
         | Some m => Fs.Returned (Some (Fs.InFontsDir m))
         | None => fst (Fonts.tryExtensions fontName rest fs)
         end.
Proof.
  unfold Ref.filesOf. cbn [Fonts.tryExtensions].
  unfold Fs.bind, Fs.existsSync, Fs.readdirSync, Fs.ret.
  destruct (Fs.present fs (Fs.InFontsDir (fontName ++ e))); [reflexivity|].
  unfold Fs.present. cbn beta.
  destruct (Fs.listing fs) as [files|] eqn:E; cbn; rewrite ?E; cbn.
  - destruct (find _ files); cbn; [reflexivity|].
    now destruct (Fonts.tryExtensions fontName rest fs) as [[r|c] t].
  - now destruct (Fonts.tryExtensions fontName rest fs) as [[r|c] t].
Qed.

(** The loop never throws: [readdirSync] is only reached behind
    [existsSync(fontsDir)]. *)
Lemma tryExtensions_returns fs fontName exts :
  exists r, fst (Fonts.tryExtensions fontName exts fs) = Fs.Returned r.
Proof.
  induction exts as [|e rest IH].
  - now exists None.
  - rewrite tryExtensions_step.
    destruct (Fs.present _ _); [eauto|]. destruct (find _ _); eauto.
Qed.

(** The loop comes back empty-handed when, for each extension, the
    candidate path does not exist and no entry matches it up to case. *)
Lemma tryExtensions_none fs fontName exts :
  (forall e, In e exts ->
     Fs.present fs (Fs.InFontsDir (fontName ++ e)) = false) ->
  (forall f e, In f (Ref.filesOf fs) -> In e exts ->
     Js.sameLower f (fontName ++ e) = false) ->
  fst (Fonts.tryExtensions fontName exts fs) = Fs.Returned None.
Proof.
  induction exts as [|e rest IH]; intros Hp Hm; [reflexivity|].
  rewrite tryExtensions_step, Hp by now left.
  rewrite find_all_false by (intros f Hf; apply Hm; [exact Hf | now left]).
  apply IH; intros; [apply Hp | apply Hm]; auto; now right.
Qed.

(** The loop finds a file as soon as some entry matches the name with one
    of the extensions up to case. *)
Lemma tryExtensions_some fs fontName exts f e :
  In f (Ref.filesOf fs) -> In e exts ->
  Js.sameLower f (fontName ++ e) = true ->
  exists p, fst (Fonts.tryExtensions fontName exts fs) = Fs.Returned (Some p).
Proof.
  intros Hf He Hm. induction exts as [|e' rest IH]; [contradiction|].
  rewrite tryExtensions_step.
  destruct (Fs.present _ _); [eauto|].
  destruct (find _ _) as [m|] eqn:Hfind; [eauto|].
  destruct He as [->|He]; [|now apply IH].
  destruct (find_one_true (fun f => Js.sameLower f (fontName ++ e))
              (Ref.filesOf fs) f Hf Hm) as [y Hy].
  congruence.
Qed.

(** The response of the route, from the outcome of the loop. *)
Lemma fontsRoute_result fs font :
  fst (Fonts.fontsRoute font fs)
  = match fst (Fonts.tryExtensions (Fonts.stripExtension font)
                 Fonts.extensions fs) with
    | Fs.Returned (Some p) =>
        Fs.Returned
          (Fonts.Stream
             match Fonts.assoc (Js.toLowerCase (Path.extname (Fonts.relOf p)))
                     Fonts.mimeMap with
             | Some m => m
             | None => "application/octet-stream"
             end p)
    | Fs.Returned None => Fs.Returned (Fonts.Status404 "Font not found")
    | Fs.Thrown c => Fs.Thrown c
    end.
Proof.
  unfold Fonts.fontsRoute, Fs.bind.
  destruct (Fonts.tryExtensions _ _ fs) as [[[p|]|c] t]; reflexivity.
Qed.

Lemma hasSeparator_app a b :
  Path.hasSeparator (a ++ b)
  = Path.hasSeparator a || Path.hasSeparator b.
Proof.
  unfold Path.hasSeparator.
  induction a as [|c a IH]; simpl; [reflexivity|].
  now rewrite IH, orb_assoc.
Qed.

Lemma length_append a b :
  String.length (a ++ b) = String.length a + String.length b.
Proof. induction a as [|c a IH]; simpl; [reflexivity | now rewrite IH]. Qed.

(** A name without separator, followed by a font extension, is a plain
    file name. *)
Lemma plainName_with_extension base e :
  Path.hasSeparator base = false -> In e Fonts.extensions ->
  Fs.plainName (base ++ e) = true.
Proof.
  intros Hsep He. unfold Fs.plainName. rewrite hasSeparator_app, Hsep.
  assert (Hlen : 4 <= String.length (base ++ e)).
  { rewrite length_append.
    simpl in He; destruct He as [<-|[<-|[<-|[<-|[]]]]]; simpl; lia. }
  assert (He' : Path.hasSeparator e = false).
  { simpl in He; destruct He as [<-|[<-|[<-|[<-|[]]]]]; reflexivity. }
  rewrite He'. simpl.
  destruct (String.eqb_spec (base ++ e) EmptyString) as [E|_];
    [rewrite E in Hlen; simpl in Hlen; lia|].
  destruct (String.eqb_spec (base ++ e) ".") as [E|_];
    [rewrite E in Hlen; simpl in Hlen; lia|].
  destruct (String.eqb_spec (base ++ e) "..") as [E|_];
    [rewrite E in Hlen; simpl in Hlen; lia|].
  reflexivity.
Qed.

(** C8, as the code has it.  Take the requested name once the route has
    stripped a font extension from it.  If that name holds no path
    separator, and the fonts directory is missing or none of its entries
    equals the name followed by one of the four extensions up to case, the
    loop ends with no path and the route answers 404 "Font not found". *)
Theorem fontsRoute_not_found fs font :
  Path.hasSeparator (Fonts.stripExtension font) = false ->
  (Fs.listing fs = None
   \/ forall f e, In f (Ref.filesOf fs) -> In e Fonts.extensions ->
        Js.sameLower f (Fonts.stripExtension font ++ e) = false) ->
  fst (Fonts.tryExtensions (Fonts.stripExtension font) Fonts.extensions fs)
  = Fs.Returned None
  /\ fst (Fonts.fontsRoute font fs)
     = Fs.Returned (Fonts.Status404 "Font not found").
Proof.
  intros Hsep Hdir.
  assert (Hnone : forall f e, In f (Ref.filesOf fs) -> In e Fonts.extensions ->
            Js.sameLower f (Fonts.stripExtension font ++ e) = false).
  { destruct Hdir as [Hmissing|H]; [|exact H].
    unfold Ref.filesOf. rewrite Hmissing. intros f e []. }
  assert (Hloop : fst (Fonts.tryExtensions (Fonts.stripExtension font)
                         Fonts.extensions fs) = Fs.Returned None).
  { apply tryExtensions_none; [|exact Hnone].
    intros e He. apply present_plain_false.
    - now apply plainName_with_extension.
    - intros f Hf. now apply Hnone. }
  split; [exact Hloop|]. now rewrite fontsRoute_result, Hloop.
Qed.

Lemma fontsRoute_not_found_witness :
  let fs := {| Fs.listing := None; Fs.caseInsensitive := false;
               Fs.elsewhere := fun _ => false |} in
  Path.hasSeparator (Fonts.stripExtension "Nonexistent") = false
  /\ Fs.listing fs = None
  /\ fst (Fonts.tryExtensions (Fonts.stripExtension "Nonexistent")
            Fonts.extensions fs) = Fs.Returned None
  /\ fst (Fonts.fontsRoute "Nonexistent" fs)
     = Fs.Returned (Fonts.Status404 "Font not found").
Proof.
  intros fs.
  split; [reflexivity|]. split; [reflexivity|].
  apply (fontsRoute_not_found fs "Nonexistent"); [reflexivity|].
  left. reflexivity.
Defined.

(** C8 fails as stated, in two ways.  Asked for "Roboto.woff" with only
    "roboto.ttf" on disk, no entry equals the requested name followed by an
    extension, yet the route strips ".woff" and streams roboto.ttf.  Asked
    for "../secret" (the parameter arrives percent-decoded) with no fonts
    directory at all, [path.join] leaves the directory and the route
    streams the file next to it. *)
Lemma fontsRoute_found_despite_no_entry :
  (let fs := {| Fs.listing := Some ["roboto.ttf"];
                Fs.caseInsensitive := false;
                Fs.elsewhere := fun _ => false |} in
   Js.toLowerCase "Roboto.woff" <> "arial"
   /\ (forall f e, In f (Ref.filesOf fs) -> In e Fonts.extensions ->
         Js.sameLower f ("Roboto.woff" ++ e) = false)
   /\ fst (Fonts.fontsRoute "Roboto.woff" fs)
      = Fs.Returned (Fonts.Stream "font/ttf" (Fs.InFontsDir "roboto.ttf")))
  /\ (let fs := {| Fs.listing := None;
                   Fs.caseInsensitive := false;
                   Fs.elsewhere := String.eqb "../secret.ttf" |} in
      Js.toLowerCase "../secret" <> "arial"
      /\ Fs.listing fs = None
      /\ fst (Fonts.fontsRoute "../secret" fs)
         = Fs.Returned
             (Fonts.Stream "font/ttf" (Fs.InFontsDir "../secret.ttf"))).
Proof.
  split; cbv zeta.
  - split; [discriminate|]. split; [|reflexivity].
    intros f e [<-|[]] He.
    simpl in He; destruct He as [<-|[<-|[<-|[<-|[]]]]]; reflexivity.
  - split; [discriminate|]. split; reflexivity.
Qed.

(** C1 fails as stated: with only "myfont.otf" in the fonts directory of a
    case-sensitive volume, the request for "MyFont.ttf" is not answered
    with not-found; the route streams myfont.otf as font/otf. *)
Lemma myfont_ttf_request_streams_otf :
  let fs := {| Fs.listing := Some ["myfont.otf"];
               Fs.caseInsensitive := false;
               Fs.elsewhere := fun _ => false |} in
  fst (Fonts.fontsRoute "MyFont.ttf" fs)
  = Fs.Returned (Fonts.Stream "font/otf" (Fs.InFontsDir "myfont.otf"))
  /\ Ref.isNotFound (fst (Fonts.fontsRoute "MyFont.ttf" fs)) = false.
Proof. split; reflexivity. Qed.

(** C1, as the code has it.  The route first strips the extension of the
    request, then tries the four extensions in turn against the directory,
    up to case: asked for "MyFont.ttf" when the directory holds only
    "myfont.otf", it streams that file with content type font/otf, on a
    case-sensitive volume and on a case-folding one alike. *)
Theorem fontsRoute_strips_requested_extension ci other :
  let fs := {| Fs.listing := Some ["myfont.otf"];
               Fs.caseInsensitive := ci;
               Fs.elsewhere := other |} in
  Fonts.stripExtension "MyFont.ttf" = "MyFont"
  /\ exists p,
      fst (Fonts.fontsRoute "MyFont.ttf" fs)
      = Fs.Returned (Fonts.Stream "font/otf" p)
      /\ Fs.entryOf fs p = Some "myfont.otf".
Proof.
  split; [reflexivity|].
  destruct ci.
  - exists (Fs.InFontsDir "MyFont.otf"). split; reflexivity.
  - exists (Fs.InFontsDir "myfont.otf"). split; reflexivity.
Qed.

(** The first version of the route joined the requested name to the
    directory as it was: there the same request is not found. *)
Lemma legacy_route_myfont_ttf_not_found :
  fst (Legacy.fontsRoute true "MyFont.ttf"
         {| Fs.listing := Some ["myfont.otf"];
            Fs.caseInsensitive := false;
            Fs.elsewhere := fun _ => false |})
  = Fs.Returned (Fonts.Status404 "Font not found").
Proof. reflexivity. Qed.

(** C2 fails as stated for the route: it has no Arial case, so a request
    for "Arial" goes to the disk like any other and, with an empty fonts
    directory, is answered with not-found. *)
Lemma arial_request_looks_up_disk_and_fails :
  Fonts.fontsRoute "Arial"
    {| Fs.listing := Some []; Fs.caseInsensitive := false;
       Fs.elsewhere := fun _ => false |}
  = (Fs.Returned (Fonts.Status404 "Font not found"),
     [Fs.ExistsSync (Fs.InFontsDir "Arial.ttf");
      Fs.ExistsSync Fs.FontsDir; Fs.ReaddirSync Fs.FontsDir;
      Fs.ExistsSync (Fs.InFontsDir "Arial.otf");
      Fs.ExistsSync Fs.FontsDir; Fs.ReaddirSync Fs.FontsDir;
      Fs.ExistsSync (Fs.InFontsDir "Arial.woff");
      Fs.ExistsSync Fs.FontsDir; Fs.ReaddirSync Fs.FontsDir;
      Fs.ExistsSync (Fs.InFontsDir "Arial.woff2");
      Fs.ExistsSync Fs.FontsDir; Fs.ReaddirSync Fs.FontsDir]).
Proof. reflexivity. Qed.

(** C2, as the code has it.  At start-up a font name equal to "arial" up
    to case is valid whatever the fonts directory is, no [fs] call is made
    for it and the name is kept as given.  The route makes no such
    exception: every request starts with an [existsSync] on the disk. *)
Theorem validateFont_arial_without_lookup fs font :
  Js.toLowerCase font = "arial" ->
  Fonts.validateFont font fs = (Fs.Returned true, [])
  /\ Fonts.checkedFont font fs = (Fs.Returned font, [])
  /\ forall requested,
      exists calls,
        snd (Fonts.fontsRoute requested fs)
        = Fs.ExistsSync
            (Fs.InFontsDir (Fonts.stripExtension requested ++ ".ttf"))
          :: calls.
Proof.
  intros Harial.
  assert (Hv : Fonts.validateFont font fs = (Fs.Returned true, [])).
  { unfold Fonts.validateFont. now rewrite Harial. }
  split; [exact Hv|]. split.
  - unfold Fonts.checkedFont, Fs.bind. now rewrite Hv.
  - intros requested. unfold Fonts.fontsRoute, Fonts.extensions.
    cbn [Fonts.tryExtensions]. unfold Fs.bind at 1 2.
    unfold Fs.existsSync at 1.
    destruct (Fs.present fs _).
    + eexists. reflexivity.
    + match goal with
      | |- context [let (r, t') := ?m fs in _] => destruct (m fs) as [[[q|]|c] t]
      end; eexists; reflexivity.
Qed.

Lemma validateFont_arial_without_lookup_witness :
  let fs := {| Fs.listing := None; Fs.caseInsensitive := false;
               Fs.elsewhere := fun _ => false |} in
  Js.toLowerCase "ARIAL" = "arial"
  /\ Fonts.validateFont "ARIAL" fs = (Fs.Returned true, [])
  /\ Fonts.checkedFont "ARIAL" fs = (Fs.Returned "ARIAL", []).
Proof.
  intros fs.
  destruct (validateFont_arial_without_lookup fs "ARIAL" eq_refl)
    as (Hv & Hc & _).
  split; [reflexivity|]. split; [exact Hv | exact Hc].
Defined.

Lemma sameName_refl fs x : Fs.sameName fs x x = true.
Proof.
  unfold Fs.sameName. destruct (Fs.caseInsensitive fs);
    [apply sameLower_refl | apply String.eqb_refl].
Qed.

(** A turn of the loop for an extension that no entry carries. *)
Lemma tryExtensions_skip fs base e rest :
  Fs.plainName (base ++ e) = true ->
  (forall f, In f (Ref.filesOf fs) -> Js.sameLower f (base ++ e) = false) ->
  fst (Fonts.tryExtensions base (e :: rest) fs)
  = fst (Fonts.tryExtensions base rest fs).
Proof.
  intros Hplain Hnone.
  rewrite tryExtensions_step, present_plain_false by assumption.
  now rewrite find_all_false.
Qed.

(** What a plain name denotes once some entry answers to it. *)
Lemma entryOf_found fs files x x' :
  Fs.plainName x = true -> Fs.listing fs = Some files ->
  In x' files -> Fs.sameName fs x x' = true ->
  exists g, Fs.entryOf fs (Fs.InFontsDir x) = Some g
            /\ In g files /\ Js.sameLower g x = true.
Proof.
  intros Hplain Hl Hin Hsame. unfold Fs.entryOf. rewrite Hl, Hplain.
  destruct (find_one_true _ _ _ Hin Hsame) as [g Hg].
  exists g. split; [exact Hg|].
  apply find_some in Hg as [Hg1 Hg2].
  split; [exact Hg1 | now apply sameName_sameLower in Hg2].
Qed.

(** The verdict of start-up validation. *)
Lemma validateFont_result fs font :
  fst (Fonts.validateFont font fs)
  = if Js.toLowerCase font =? "arial" then Fs.Returned true
    else match Fs.listing fs with
         | None => Fs.Returned false
         | Some files =>
             Fs.Returned
               (existsb (fun name => Js.sameLower name font)
                  (map (fun f => Path.basename f (Path.extname f))
                     (filter Fonts.isFontFile files)))
         end.
Proof.
  unfold Fonts.validateFont.
  destruct (Js.toLowerCase font =? "arial"); [reflexivity|].
  unfold Fs.bind, Fs.existsSync, Fs.readdirSync, Fs.ret, Fs.present.
  cbv beta. destruct (Fs.listing fs) as [files|] eqn:E; cbn; rewrite ?E; cbn;
    [|reflexivity].
  now destruct (existsb _ _).
Qed.

(** C7. With "comic-sans.woff2" in the fonts directory, the request for
    "Comic-Sans" is answered with a file, and start-up validation accepts
    the name; when no other entry is called comic-sans with a font
    extension, up to case, the file streamed is comic-sans.woff2, as
    font/woff2.  The same holds for each of the four extensions the stored
    file may have. *)
Theorem comic_sans_resolves :
  (forall fs files,
     Fs.listing fs = Some files -> In "comic-sans.woff2" files ->
     (exists mime p,
        fst (Fonts.fontsRoute "Comic-Sans" fs)
        = Fs.Returned (Fonts.Stream mime p))
     /\ fst (Fonts.validateFont "Comic-Sans" fs) = Fs.Returned true
     /\ ((forall f e, In f files -> In e Fonts.extensions ->
            Js.sameLower f ("Comic-Sans" ++ e) = true ->
            f = "comic-sans.woff2") ->
         exists p,
           fst (Fonts.fontsRoute "Comic-Sans" fs)
           = Fs.Returned (Fonts.Stream "font/woff2" p)
           /\ Fs.entryOf fs p = Some "comic-sans.woff2"))
  /\ (forall ci other e,
        In e Fonts.extensions ->
        let fs := {| Fs.listing := Some ["comic-sans" ++ e];
                     Fs.caseInsensitive := ci;
                     Fs.elsewhere := other |} in
        exists mime p,
          fst (Fonts.fontsRoute "Comic-Sans" fs)
          = Fs.Returned (Fonts.Stream mime p)
          /\ Fonts.assoc e Fonts.mimeMap = Some mime
          /\ Fs.entryOf fs p = Some ("comic-sans" ++ e)).
Proof.
  split.
  - intros fs files Hl Hin.
    assert (Hfiles : Ref.filesOf fs = files)
      by (unfold Ref.filesOf; now rewrite Hl).
    split; [|split].
    + (* some file is streamed *)
      rewrite fontsRoute_result.
      destruct (tryExtensions_some fs "Comic-Sans" Fonts.extensions
                  "comic-sans.woff2" ".woff2") as [p Hp].
      * now rewrite Hfiles.
      * simpl; auto.
      * reflexivity.
      * change (Fonts.stripExtension "Comic-Sans") with "Comic-Sans".
        rewrite Hp. eauto.
    + (* start-up validation *)
      rewrite validateFont_result, Hl.
      change (Js.toLowerCase "Comic-Sans" =? "arial") with false.
      cbv iota. f_equal. apply existsb_exists.
      exists (Path.basename "comic-sans.woff2"
                (Path.extname "comic-sans.woff2")).
      split; [|reflexivity].
      apply (in_map (fun f => Path.basename f (Path.extname f))).
      apply filter_In. split; [exact Hin | reflexivity].
    + (* the file streamed *)
      intros Huniq.
      assert (Hother : forall e, In e Fonts.extensions ->
                Js.sameLower "comic-sans.woff2" ("Comic-Sans" ++ e) = false ->
                forall f, In f (Ref.filesOf fs) ->
                  Js.sameLower f ("Comic-Sans" ++ e) = false).
      { intros e He Hdiff f Hf. rewrite Hfiles in Hf.
        destruct (Js.sameLower f ("Comic-Sans" ++ e)) eqn:E; [|reflexivity].
        rewrite (Huniq f e Hf He E) in E. congruence. }
      rewrite fontsRoute_result.
      change (Fonts.stripExtension "Comic-Sans") with "Comic-Sans".
      unfold Fonts.extensions.
      rewrite 3 tryExtensions_skip;
        try reflexivity;
        try (apply Hother; [simpl; auto 6 | reflexivity]).
      rewrite tryExtensions_step.
      destruct (Fs.present fs (Fs.InFontsDir ("Comic-Sans" ++ ".woff2")))
        eqn:Hpresent.
      * (* the volume folds case: the candidate itself exists *)
        exists (Fs.InFontsDir "Comic-Sans.woff2"). split; [reflexivity|].
        unfold Fs.present in Hpresent.
        change (Fs.plainName ("Comic-Sans" ++ ".woff2")) with true in Hpresent.
        cbv iota in Hpresent.
        change ("Comic-Sans" ++ ".woff2") with "Comic-Sans.woff2" in Hpresent.
        destruct (Fs.entryOf fs (Fs.InFontsDir "Comic-Sans.woff2"))
          as [g|] eqn:Hg; [|discriminate].
        f_equal. unfold Fs.entryOf in Hg. rewrite Hl in Hg.
        change (Fs.plainName "Comic-Sans.woff2") with true in Hg.
        cbv iota in Hg. apply find_some in Hg as [Hg1 Hg2].
        apply (Huniq g ".woff2" Hg1); [simpl; auto 6|].
        now apply sameName_sameLower in Hg2.
      * (* the fallback scan of the directory *)
        destruct (find_one_true
                    (fun f => Js.sameLower f ("Comic-Sans" ++ ".woff2"))
                    (Ref.filesOf fs) "comic-sans.woff2")
          as [m Hm]; [now rewrite Hfiles | reflexivity |].
        rewrite Hm. apply find_some in Hm as [Hm1 Hm2].
        rewrite Hfiles in Hm1.
        assert (m = "comic-sans.woff2") as ->
          by (apply (Huniq m ".woff2" Hm1); [simpl; auto 6 | exact Hm2]).
        exists (Fs.InFontsDir "comic-sans.woff2"). split; [reflexivity|].
        destruct (entryOf_found fs files "comic-sans.woff2"
                    "comic-sans.woff2" eq_refl Hl Hin (sameName_refl fs _))
          as (g & Hg & Hg1 & Hg2).
        rewrite Hg. f_equal.
        apply (Huniq g ".woff2" Hg1); [simpl; auto 6 | exact Hg2].
  - intros ci other e He fs. subst fs.
    simpl in He. destruct He as [<-|[<-|[<-|[<-|[]]]]]; destruct ci;
      do 2 eexists; (split; [reflexivity|]); split; reflexivity.
Qed.

Lemma comic_sans_resolves_witness :
  let fs := {| Fs.listing := Some ["readme.txt"; "comic-sans.woff2"];
               Fs.caseInsensitive := false;
               Fs.elsewhere := fun _ => false |} in
  In "comic-sans.woff2" ["readme.txt"; "comic-sans.woff2"]
  /\ exists p,
      fst (Fonts.fontsRoute "Comic-Sans" fs)
      = Fs.Returned (Fonts.Stream "font/woff2" p)
      /\ Fs.entryOf fs p = Some "comic-sans.woff2".
Proof.
  intros fs.
  assert (Hin : In "comic-sans.woff2" ["readme.txt"; "comic-sans.woff2"])
    by (right; left; reflexivity).
  split; [exact Hin|].
  apply (proj1 comic_sans_resolves fs _ eq_refl Hin).
  intros f e [<-|[<-|[]]] He Hsame; [|reflexivity].
  simpl in He; destruct He as [<-|[<-|[<-|[<-|[]]]]]; discriminate Hsame.
Defined.

(** ** Position tokens and [Number] *)

Lemma digit_is_literalChar c :
  Ref.literalChar c = false -> forall base, Js.digitValue base c = None.
Proof.
  destruct c as [[] [] [] [] [] [] [] []]; intros H base;
    try discriminate H; reflexivity.
Qed.

Lemma foreign_not_whiteSpace c :
  Ref.literalChar c = false -> Js.isWhiteSpace c = false.
Proof.
  unfold Ref.literalChar. destruct (Js.isWhiteSpace c); [discriminate|reflexivity].
Qed.

Lemma trimStart_keeps c l :
  Js.isWhiteSpace c = false -> In c l -> In c (Js.trimStart l).
Proof.
  intros Hc. induction l as [|x xs IH]; simpl; [tauto|].
  intros [->|Hin].
  - rewrite Hc. now left.
  - destruct (Js.isWhiteSpace x); [now apply IH | now right].
Qed.

Lemma trim_keeps c l :
  Js.isWhiteSpace c = false -> In c l -> In c (Js.trim l).
Proof.
  intros Hc Hin. unfold Js.trim.
  apply in_rev. rewrite rev_involutive.
  apply trimStart_keeps; [exact Hc|]. apply -> in_rev.
  now apply trimStart_keeps.
Qed.

(** Whatever [readDigits] consumes is made of digits. *)
Lemma readDigits_rest base l c :
  In c l -> Js.digitValue base c = None ->
  In c (snd (Js.readDigits base l)).
Proof.
  intros Hin Hc. induction l as [|x xs IH]; simpl; [contradiction|].
  destruct (Js.digitValue base x) eqn:Hx.
  - destruct Hin as [->|Hin]; [congruence|].
    specialize (IH Hin). destruct (Js.readDigits base xs). exact IH.
  - exact Hin.
Qed.

Lemma wholeDigits_foreign base l c :
  In c l -> Js.digitValue base c = None -> Js.wholeDigits base l = None.
Proof.
  intros Hin Hc. unfold Js.wholeDigits.
  pose proof (readDigits_rest base l c Hin Hc) as H.
  destruct (Js.readDigits base l) as [[|d ds] [|y ys]];
    simpl in H; try contradiction; reflexivity.
Qed.

Lemma nonDecimal_foreign l c :
  In c l -> Ref.literalChar c = false ->
  Js.nonDecimalIntegerLiteral l = None.
Proof.
  intros Hin Hc. unfold Js.nonDecimalIntegerLiteral.
  destruct l as [|z [|p r]]; try reflexivity.
  destruct (Ascii.eqb_spec z "0") as [->|_]; [|reflexivity].
  destruct Hin as [<-|[<-|Hin]]; [discriminate Hc| |].
  - destruct p as [[] [] [] [] [] [] [] []]; try discriminate Hc; reflexivity.
  - rewrite !(wholeDigits_foreign _ r c Hin)
      by now apply digit_is_literalChar.
    now repeat destruct (_ || _).
Qed.

Lemma signedInteger_foreign l c :
  In c l -> Ref.literalChar c = false -> Js.signedInteger l = None.
Proof.
  intros Hin Hc. unfold Js.signedInteger.
  destruct l as [|s t]; [reflexivity|].
  assert (Hd : Js.digitValue 10 c = None) by now apply digit_is_literalChar.
  destruct (Ascii.eqb_spec s "+") as [->|_];
    [|destruct (Ascii.eqb_spec s "-") as [->|_]].
  - destruct Hin as [<-|Hin]; [discriminate Hc|].
    now rewrite (wholeDigits_foreign 10 t c).
  - destruct Hin as [<-|Hin]; [discriminate Hc|].
    now rewrite (wholeDigits_foreign 10 t c).
  - now rewrite (wholeDigits_foreign 10 (s :: t) c).
Qed.

Lemma exponentPart_foreign l c :
  In c l -> Ref.literalChar c = false -> Js.exponentPart l = None.
Proof.
  intros Hin Hc. unfold Js.exponentPart.
  destruct l as [|x r]; [contradiction|].
  destruct (Ascii.eqb x "e" || Ascii.eqb x "E") eqn:Hx; [|reflexivity].
  destruct Hin as [<-|Hin]; [|now apply (signedInteger_foreign r c)].
  destruct x as [[] [] [] [] [] [] [] []]; discriminate.
Qed.

Lemma strUnsignedDecimalLiteral_foreign neg l c :
  In c l -> Ref.literalChar c = false ->
  Js.strUnsignedDecimalLiteral neg l = Js.NaN.
Proof.
  intros Hin Hc. unfold Js.strUnsignedDecimalLiteral.
  assert (Hd : Js.digitValue 10 c = None) by now apply digit_is_literalChar.
  destruct (String.eqb_spec (string_of_list_ascii l) "Infinity") as [E|_].
  { apply (f_equal list_ascii_of_string) in E.
    rewrite list_ascii_of_string_of_list_ascii in E. subst l.
    simpl in Hin.
    repeat (destruct Hin as [<-|Hin]; [discriminate Hc|]). contradiction. }
  pose proof (readDigits_rest 10 l c Hin Hd) as H1.
  destruct (Js.readDigits 10 l) as [ip r1]. simpl in H1.
  assert (H2 : forall fp r2,
             match r1 with
             | x :: r => if Ascii.eqb x "." then Js.readDigits 10 r else ([], r1)
             | [] => ([], r1)
             end = (fp, r2) -> In c r2).
  { intros fp r2 E. destruct r1 as [|x r]; [contradiction|].
    destruct (Ascii.eqb_spec x ".") as [->|_].
    - destruct H1 as [<-|H1]; [discriminate Hc|].
      pose proof (readDigits_rest 10 r c H1 Hd) as H. now rewrite E in H.
    - now inversion E; subst. }
  destruct (match r1 with [] => _ | _ => _ end) as [fp r2].
  specialize (H2 fp r2 eq_refl).
  rewrite (exponentPart_foreign r2 c H2 Hc).
  now destruct (_ && _).
Qed.

(** A field with a character foreign to numeric literals is not a number. *)
Lemma literalValue_foreign field :
  Ref.foreign field = true -> Js.literalValue field = Js.NaN.
Proof.
  unfold Ref.foreign. intros H. apply existsb_exists in H as (c & Hin & Hc).
  apply negb_true_iff in Hc.
  pose proof (trim_keeps c _ (foreign_not_whiteSpace c Hc) Hin) as Ht.
  unfold Js.literalValue.
  destruct (Js.trim (list_ascii_of_string field)) as [|x r]; [contradiction|].
  rewrite (nonDecimal_foreign (x :: r) c Ht Hc).
  destruct (Ascii.eqb_spec x "+") as [->|_];
    [|destruct (Ascii.eqb_spec x "-") as [->|_]].
  - destruct Ht as [<-|Ht]; [discriminate Hc|].
    now apply (strUnsignedDecimalLiteral_foreign false r c).
  - destruct Ht as [<-|Ht]; [discriminate Hc|].
    now apply (strUnsignedDecimalLiteral_foreign true r c).
  - now apply (strUnsignedDecimalLiteral_foreign false (x :: r) c).
Qed.

Lemma trimStart_blank l :
  forallb Js.isWhiteSpace l = true -> Js.trimStart l = [].
Proof.
  induction l as [|x xs IH]; simpl; [reflexivity|].
  destruct (Js.isWhiteSpace x); [exact IH | discriminate].
Qed.

(** A blank field, the empty one included, is zero. *)
Lemma literalValue_blank field :
  Ref.blank field = true -> Js.literalValue field = Js.ofN 0.
Proof.
  unfold Ref.blank, Js.literalValue, Js.trim. intros H.
  now rewrite (trimStart_blank _ H).
Qed.

Lemma elementAt_map i pieces :
  Js.elementAt i (map Js.Number pieces)
  = match nth_error pieces i with
    | Some field => Js.Num (Js.Number field)
    | None => Js.Undefined
    end.
Proof.
  unfold Js.elementAt. rewrite nth_error_map.
  now destruct (nth_error pieces i).
Qed.

Lemma decimal_digit_facts c d :
  Js.digitValue 10 c = Some d ->
  Js.isWhiteSpace c = false
  /\ Ascii.eqb c "+" = false /\ Ascii.eqb c "-" = false
  /\ (Ascii.eqb c "x" || Ascii.eqb c "X") = false
  /\ (Ascii.eqb c "o" || Ascii.eqb c "O") = false
  /\ (Ascii.eqb c "b" || Ascii.eqb c "B") = false.
Proof.
  destruct c as [[] [] [] [] [] [] [] []]; intros H;
    try discriminate H; repeat split.
Qed.

Lemma trimStart_id l :
  (forall c, In c l -> Js.isWhiteSpace c = false) -> Js.trimStart l = l.
Proof.
  destruct l as [|x xs]; simpl; intros H; [reflexivity|].
  now rewrite (H x) by now left.
Qed.

Lemma readDigits_all l :
  forallb (fun c => match Js.digitValue 10 c with
                    | Some _ => true
                    | None => false
                    end) l = true ->
  snd (Js.readDigits 10 l) = []
  /\ (l <> [] -> fst (Js.readDigits 10 l) <> []).
Proof.
  induction l as [|x xs IH]; simpl; intros H; [now split|].
  apply andb_true_iff in H as [Hx Hxs].
  destruct (Js.digitValue 10 x); [|discriminate].
  destruct (IH Hxs) as [IH1 _].
  destruct (Js.readDigits 10 xs); simpl in *. now split.
Qed.

(** A field of the documented format has the value it spells. *)
Lemma literalValue_digitString field :
  Ref.digitString field = true ->
  Js.literalValue field = Js.ofN (Ref.decimalValue field).
Proof.
  unfold Ref.digitString, Js.allDecimal, Ref.decimalValue, Js.literalValue.
  intros H. apply andb_true_iff in H as [Hne Hall].
  assert (Hinf : (string_of_list_ascii (list_ascii_of_string field)
                  =? "Infinity") = false).
  { rewrite string_of_list_ascii_of_string.
    destruct (String.eqb_spec field "Infinity") as [->|]; [discriminate Hall|].
    reflexivity. }
  assert (Hnil : list_ascii_of_string field <> []).
  { destruct field; [discriminate Hne | discriminate]. }
  remember (list_ascii_of_string field) as l eqn:El. clear El Hne.
  assert (Hdigit : forall c, In c l -> exists d, Js.digitValue 10 c = Some d).
  { intros c Hc. rewrite forallb_forall in Hall. specialize (Hall c Hc).
    destruct (Js.digitValue 10 c) as [d|]; [now exists d | discriminate]. }
  assert (Hws : forall c, In c l -> Js.isWhiteSpace c = false).
  { intros c Hc. destruct (Hdigit c Hc) as [d Hd].
    apply (decimal_digit_facts c d Hd). }
  assert (Htrim : Js.trim l = l).
  { unfold Js.trim. rewrite (trimStart_id l Hws), trimStart_id.
    - apply rev_involutive.
    - intros c Hc. apply Hws. now apply in_rev. }
  rewrite Htrim.
  destruct l as [|c r] eqn:El; [now elim Hnil|].
  destruct (Hdigit c (or_introl eq_refl)) as [d Hd].
  destruct (decimal_digit_facts c d Hd) as (_ & Hplus & Hminus & _).
  assert (Js.nonDecimalIntegerLiteral (c :: r) = None) as ->.
  { unfold Js.nonDecimalIntegerLiteral. destruct r as [|p r']; [reflexivity|].
    destruct (Hdigit p (or_intror (or_introl eq_refl))) as [dp Hdp].
    destruct (decimal_digit_facts p dp Hdp) as (_ & _ & _ & -> & -> & ->).
    now destruct (Ascii.eqb c "0"). }
  rewrite Hplus, Hminus. unfold Js.strUnsignedDecimalLiteral. rewrite Hinf.
  destruct (readDigits_all (c :: r) Hall) as [Hrest Hip].
  destruct (Js.readDigits 10 (c :: r)) as [ip rest]. simpl in Hrest, Hip.
  subst rest. destruct ip as [|i ip']; [now elim Hip|].
  cbn [Js.isNil andb Js.exponentPart fst List.length].
  now rewrite app_nil_r.
Qed.

(** C5 fails as stated.  In "5-" the end field is empty, in "1e3-0x1F"
    neither field is a run of digits, and "7" has no end field at all; the
    spans come out with end 0, with start 1000 and end 31, and with an
    undefined end: none of these offsets is NaN. *)
Lemma non_numeric_fields_without_NaN :
  Js.split "-" "5-" = ["5"; EmptyString]
  /\ Js.split "-" "1e3-0x1F" = ["1e3"; "0x1F"]
  /\ Js.split "-" "7" = ["7"]
  /\ Ref.digitString EmptyString = false
  /\ Ref.digitString "1e3" = false
  /\ Ref.digitString "0x1F" = false
  /\ Chat.collectEmotes (Some [("25", ["5-"; "1e3-0x1F"; "7"])])
     = [ {| Chat.id := "25"; Chat.start := Js.Num (Js.ofN 5);
            Chat.end_ := Js.Num (Js.ofN 0) |};
         {| Chat.id := "25"; Chat.start := Js.Num (Js.ofN 1000);
            Chat.end_ := Js.Num (Js.ofN 31) |};
         {| Chat.id := "25"; Chat.start := Js.Num (Js.ofN 7);
            Chat.end_ := Js.Undefined |} ].
Proof. repeat split. Qed.

Lemma trim_head l c r :
  Js.trimStart l = c :: r -> exists r', Js.trim l = c :: r'.
Proof.
  intros E. unfold Js.trim. rewrite E.
  assert (Hc : Js.isWhiteSpace c = false).
  { clear -E. induction l as [|x xs IH]; simpl in E; [discriminate|].
    destruct (Js.isWhiteSpace x) eqn:Hx; [now apply IH|].
    now inversion E; subst. }
  assert (Hin : In c (Js.trimStart (rev (c :: r))))
    by (apply trimStart_keeps; [exact Hc | apply -> in_rev; now left]).
  assert (Hsuffix : forall m, exists pre, (pre ++ Js.trimStart m = m)%list).
  { induction m as [|x xs [pre IH]]; simpl; [now exists []|].
    destruct (Js.isWhiteSpace x); [|now exists []].
    exists (x :: pre). simpl. now rewrite IH. }
  destruct (Hsuffix (rev (c :: r))) as [pre Hpre].
  apply (f_equal (@rev ascii)) in Hpre.
  rewrite rev_app_distr, rev_involutive in Hpre.
  destruct (rev (Js.trimStart (rev (c :: r)))) as [|y ys] eqn:Hy.
  - apply (f_equal (@rev ascii)) in Hy. rewrite rev_involutive in Hy.
    rewrite Hy in Hin. contradiction.
  - simpl in Hpre. inversion Hpre; subst. now exists ys.
Qed.

(** A field that cannot open a numeric literal is not a number. *)
Lemma literalValue_badStart field :
  Ref.badStart field = true -> Js.literalValue field = Js.NaN.
Proof.
  unfold Ref.badStart. intros H.
  destruct (Js.trimStart (list_ascii_of_string field)) as [|c r] eqn:E;
    [discriminate|].
  destruct (trim_head _ _ _ E) as [r' Ht].
  unfold Js.literalValue. rewrite Ht. clear E Ht.
  apply negb_true_iff, orb_false_iff in H as [Hd Hs].
  assert (Hd' : Js.digitValue 10 c = None)
    by (destruct (Js.digitValue 10 c); [discriminate | reflexivity]).
  simpl in Hs.
  apply orb_false_iff in Hs as [Hplus Hs].
  apply orb_false_iff in Hs as [Hminus Hs].
  apply orb_false_iff in Hs as [Hdot Hs].
  apply orb_false_iff in Hs as [HI _].
  assert (Hzero : Ascii.eqb c "0" = false)
    by (destruct (Ascii.eqb_spec c "0") as [->|]; [discriminate Hd'|reflexivity]).
  unfold Js.nonDecimalIntegerLiteral.
  rewrite Hzero, Hplus, Hminus.
  assert (Js.strUnsignedDecimalLiteral false (c :: r') = Js.NaN) as ->.
  { unfold Js.strUnsignedDecimalLiteral. simpl string_of_list_ascii.
    assert ((String c (string_of_list_ascii r') =? "Infinity") = false) as ->.
    { simpl. now rewrite HI. }
    simpl. rewrite Hd', Hdot. reflexivity. }
  now destruct r'.
Qed.

(** *** Rounding to a double *)

Lemma floorLog2_whole a : (0 < a)%Z -> Js.floorLog2 a 1 = Z.log2 a.
Proof.
  intros Ha. unfold Js.floorLog2. change (Z.log2 1) with 0%Z.
  rewrite Z.sub_0_r.
  pose proof (Z.log2_nonneg a) as Hl.
  destruct (Z.leb_spec 0 (Z.log2 a)) as [_|]; [|lia].
  pose proof (Z.log2_spec a Ha) as [Hlow _].
  destruct (Z.leb_spec (1 * 2 ^ Z.log2 a) a); [reflexivity | lia].
Qed.

Lemma trailingZeros_nonneg p : (0 <= Js.trailingZeros p)%Z.
Proof. induction p; simpl; lia. Qed.

Lemma trailingZeros_shift p (j : nat) :
  exists p', Zpos p' = (Zpos p * 2 ^ Z.of_nat j)%Z
             /\ Js.trailingZeros p'
                = (Js.trailingZeros p + Z.of_nat j)%Z.
Proof.
  induction j as [|j (p' & Hp' & Ht)].
  - exists p. simpl. split; lia.
  - exists (xO p'). split.
    + rewrite Nat2Z.inj_succ, Z.pow_succ_r by lia.
      change (Zpos p'~0) with (2 * Zpos p')%Z. rewrite Hp'. ring.
    + simpl. rewrite Ht. lia.
Qed.

(** An integer below [2^53], written in full, is a double: rounding
    leaves it as it is. *)
Lemma roundMVResult_exact n :
  (n < 2 ^ 53)%N -> Js.roundMVResult (Js.ofN n) = Js.ofN n.
Proof.
  intros Hn. destruct n as [|p]; [reflexivity|].
  assert (Ha : (Zpos p < 2 ^ 53)%Z).
  { change (2 ^ 53)%Z with (Z.of_N (2 ^ 53)). change (Zpos p) with (Z.of_N (Npos p)).
    now apply N2Z.inj_lt. }
  unfold Js.ofN, Js.roundMVResult.
  change (0 <=? 0)%Z with true. cbv iota zeta.
  rewrite Z.pow_0_r, Z.mul_1_r, floorLog2_whole by lia.
  pose proof (Z.log2_nonneg (Zpos p)) as Hl0.
  assert (Hl : (Z.log2 (Zpos p) < 53)%Z) by (apply Z.log2_lt_pow2; lia).
  set (L := Z.log2 (Zpos p)) in *.
  rewrite Z.max_l by lia.
  destruct (trailingZeros_shift p (Z.to_nat (52 - L))) as (p' & Hp' & Ht).
  rewrite Z2Nat.id in Hp', Ht by lia.
  assert (Hpow : (0 < 2 ^ (52 - L))%Z) by (apply Z.pow_pos_nonneg; lia).
  assert (HM : ((if (L - 52 <? 0)%Z then Zpos p * 2 ^ (- (L - 52))
                 else Zpos p) = Zpos p')%Z).
  { destruct (Z.ltb_spec (L - 52) 0).
    - rewrite Hp'. f_equal. f_equal. lia.
    - rewrite Hp'. replace (52 - L)%Z with 0%Z by lia.
      now rewrite Z.pow_0_r, Z.mul_1_r. }
  assert (Hd : ((if (L - 52 <? 0)%Z then 1 else 1 * 2 ^ (L - 52)) = 1)%Z).
  { destruct (Z.ltb_spec (L - 52) 0); [reflexivity|].
    replace (L - 52)%Z with 0%Z by lia. reflexivity. }
  rewrite HM, Hd, Z.div_1_r, Z.mod_1_r.
  change (2 * 0 <? 1)%Z with true. cbv iota.
  assert (Hlog : (Z.log2 (Zpos p') = 52)%Z).
  { rewrite Hp', Z.log2_mul_pow2 by lia. fold L. lia. }
  rewrite Hlog.
  destruct (Z.leb_spec 1024 (52 + (L - 52))) as [|_]; [lia|].
  unfold Js.dyadic.
  destruct (Z.leb_spec 0 (L - 52)) as [Hq|Hq].
  - assert (L = 52%Z) as HL by lia. rewrite HL in *.
    change (52 - 52)%Z with 0%Z in *. rewrite Z.pow_0_r in *.
    rewrite Z.mul_1_r in Hp'. rewrite Hp'.
    now rewrite Z.mul_1_r.
  - pose proof (trailingZeros_nonneg p) as Htz.
    rewrite Ht, Z.min_r by lia.
    replace (- (L - 52))%Z with (52 - L)%Z by lia.
    replace (L - 52 + (52 - L))%Z with 0%Z by lia.
    rewrite Hp', Z.div_mul by lia.
    change (- 0)%Z with 0%Z. now rewrite Z.pow_0_r, Z.mul_1_r.
Qed.

(** [Number] on the four kinds of field. *)
Lemma Number_foreign field :
  Ref.foreign field = true -> Js.Number field = Js.NaN.
Proof.
  intros H. unfold Js.Number. now rewrite literalValue_foreign.
Qed.

Lemma Number_badStart field :
  Ref.badStart field = true -> Js.Number field = Js.NaN.
Proof.
  intros H. unfold Js.Number. now rewrite literalValue_badStart.
Qed.

Lemma Number_blank field :
  Ref.blank field = true -> Js.Number field = Js.ofN 0.
Proof.
  intros H. unfold Js.Number. now rewrite literalValue_blank.
Qed.

Lemma Number_digitString field :
  Ref.digitString field = true ->
  Js.Number field = Js.roundMVResult (Js.ofN (Ref.decimalValue field)).
Proof.
  intros H. unfold Js.Number. now rewrite literalValue_digitString.
Qed.

Lemma split_first sep s :
  exists field rest, Js.split sep s = field :: rest.
Proof.
  destruct s as [|c r]; simpl; [eauto|].
  destruct (Ascii.eqb c sep); [eauto|].
  destruct (Js.split sep r); eauto.
Qed.

(** A digit string too long for a double is read as the nearest one. *)
Example Number_rounds_to_double :
  Js.Number "9007199254740993" = Js.ofN 9007199254740992
  /\ Js.Number "1e400" = Js.Infinity false
  /\ Js.Number "0.5" = Js.Finite false 5 (-1).
Proof. repeat split; vm_compute; reflexivity. Qed.

(** C5, as the code has it.  Every position token adds one span, whatever
    it holds.  Its start is [Number] of the text before the first hyphen
    and its end [Number] of the text between the first and the second; the
    end is undefined when the token has no hyphen.  Such an offset is NaN
    when the field has a character that no JavaScript numeric literal
    contains, or does not start, after white space, with a digit, a sign, a
    dot or the I of Infinity; it is 0 when the field is empty or blank;
    when the field is a run of digits it is the double nearest to the
    number spelt, which below 2^53 is that number. *)
Theorem position_token_offsets emoteId position acc :
  exists s e,
    Chat.pushPositions emoteId [position] acc
    = (acc ++ [{| Chat.id := emoteId; Chat.start := s; Chat.end_ := e |}])%list
    /\ (exists field, nth_error (Js.split "-" position) 0 = Some field)
    /\ (forall field,
          nth_error (Js.split "-" position) 0 = Some field ->
          s = Js.Num (Js.Number field)
          /\ (Ref.foreign field = true \/ Ref.badStart field = true ->
              s = Js.Num Js.NaN)
          /\ (Ref.blank field = true -> s = Js.Num (Js.ofN 0))
          /\ (Ref.digitString field = true ->
              s = Js.Num (Js.roundMVResult
                            (Js.ofN (Ref.decimalValue field)))
              /\ ((Ref.decimalValue field < 2 ^ 53)%N ->
                  s = Js.Num (Js.ofN (Ref.decimalValue field)))))
    /\ (forall field,
          nth_error (Js.split "-" position) 1 = Some field ->
          e = Js.Num (Js.Number field)
          /\ (Ref.foreign field = true \/ Ref.badStart field = true ->
              e = Js.Num Js.NaN)
          /\ (Ref.blank field = true -> e = Js.Num (Js.ofN 0))
          /\ (Ref.digitString field = true ->
              e = Js.Num (Js.roundMVResult
                            (Js.ofN (Ref.decimalValue field)))
              /\ ((Ref.decimalValue field < 2 ^ 53)%N ->
                  e = Js.Num (Js.ofN (Ref.decimalValue field)))))
    /\ (nth_error (Js.split "-" position) 1 = None -> e = Js.Undefined).
Proof.
  exists (Js.elementAt 0 (map Js.Number (Js.split "-" position))),
         (Js.elementAt 1 (map Js.Number (Js.split "-" position))).
  split; [reflexivity|].
  rewrite !elementAt_map.
  assert (Hfield : forall field,
            Js.Num (Js.Number field) = Js.Num (Js.Number field)
            /\ (Ref.foreign field = true \/ Ref.badStart field = true ->
                Js.Num (Js.Number field) = Js.Num Js.NaN)
            /\ (Ref.blank field = true ->
                Js.Num (Js.Number field) = Js.Num (Js.ofN 0))
            /\ (Ref.digitString field = true ->
                Js.Num (Js.Number field)
                = Js.Num (Js.roundMVResult
                            (Js.ofN (Ref.decimalValue field)))
                /\ ((Ref.decimalValue field < 2 ^ 53)%N ->
                    Js.Num (Js.Number field)
                    = Js.Num (Js.ofN (Ref.decimalValue field))))).
  { intros field. split; [reflexivity|]. split; [|split].
    - intros [H|H];
        [now rewrite Number_foreign | now rewrite Number_badStart].
    - intros H. now rewrite Number_blank.
    - intros H. rewrite (Number_digitString field H).
      split; [reflexivity|]. intros Hlt.
      now rewrite roundMVResult_exact. }
  split; [|split; [|split]].
  - destruct (split_first "-" position) as (field & rest & ->).
    now exists field.
  - intros field ->. apply Hfield.
  - intros field ->. apply Hfield.
  - now intros ->.
Qed.

Lemma position_token_offsets_witness :
  exists s e,
    Chat.pushPositions "25" ["12-1z"] []
    = [{| Chat.id := "25"; Chat.start := s; Chat.end_ := e |}]
    /\ nth_error (Js.split "-" "12-1z") 0 = Some "12"
    /\ nth_error (Js.split "-" "12-1z") 1 = Some "1z"
    /\ Ref.digitString "12" = true
    /\ (Ref.decimalValue "12" < 2 ^ 53)%N
    /\ Ref.foreign "1z" = true
    /\ s = Js.Num (Js.ofN 12) /\ e = Js.Num Js.NaN.
Proof.
  destruct (position_token_offsets "25" "12-1z" [])
    as (s & e & Hpush & _ & Hs & He & _).
  exists s, e. split; [exact Hpush|].
  repeat (split; [reflexivity|]).
  destruct (Hs "12" eq_refl) as (_ & _ & _ & Hdigits).
  destruct (He "1z" eq_refl) as (_ & Hnan & _).
  split.
  - exact (proj2 (Hdigits eq_refl) eq_refl).
  - exact (Hnan (or_introl eq_refl)).
Defined.

(** * Further properties *)

(** ** The relay: fan-out, order, disconnection *)

Section RelayDelivery.

Variable config : Relay.SessionConfig.

Lemma initial_tidy : Obs.tidy Relay.initial.
Proof. split; [constructor | intros sid []]. Qed.

Lemma step_tidy s e : Obs.tidy s -> Obs.tidy (Relay.step config s e).
Proof.
  destruct s as [c n w]. intros [Hnd Hlt]; simpl in *.
  destruct e as [|sid0|chan tags message self]; split; simpl; auto.
  - apply NoDup_app; [exact Hnd | repeat constructor; intros [] |].
    intros x Hx [E|[]]. specialize (Hlt x Hx). lia.
  - intros sid Hin. apply in_app_or in Hin as [Hin|[<-|[]]]; [|lia].
    specialize (Hlt sid Hin). lia.
  - now apply NoDup_filter.
  - intros sid Hin. apply filter_In in Hin as [Hin _]. now apply Hlt.
Qed.

Lemma fold_tidy events s :
  Obs.tidy s -> Obs.tidy (fold_left (Relay.step config) events s).
Proof.
  revert s. induction events as [|e events IH]; intros s H; simpl; [exact H|].
  apply IH. now apply step_tidy.
Qed.

Lemma run_tidy events : Obs.tidy (Relay.run config events).
Proof. apply fold_tidy, initial_tidy. Qed.

Lemma filter_eq_NoDup sid sockets :
  NoDup sockets ->
  filter (fun x => Nat.eqb x sid) sockets
  = if existsb (Nat.eqb sid) sockets then [sid] else [].
Proof.
  induction 1 as [|x xs Hx Hnd IH]; simpl; [reflexivity|].
  rewrite (Nat.eqb_sym sid x).
  destruct (Nat.eqb_spec x sid) as [->|Hne]; simpl.
  - rewrite not_connected_filter by exact Hx. reflexivity.
  - exact IH.
Qed.

(** What a message callback adds to one socket's packets. *)
Lemma message_step_received s chan tags message self sid :
  Obs.tidy s ->
  Relay.received sid
    (Relay.step config s (Relay.Message chan tags message self))
  = (Relay.received sid s
     ++ if Obs.isConnected sid s
        then map Relay.ChatMessage
               (Obs.published [Relay.Message chan tags message self])
        else [])%list.
Proof.
  destruct s as [c n w]. intros [Hnd _]. unfold Obs.isConnected. simpl in *.
  rewrite app_nil_r, (received_app sid c n), ioEmit_received.
  rewrite (filter_eq_NoDup sid c Hnd).
  now destruct (existsb (Nat.eqb sid) c).
Qed.

(** X1. A chat message goes, as one [chatMessage] packet carrying the same
    event, to each socket connected when it arrives, and to no other. *)
Theorem message_fans_out events chan tags message self sid :
  Relay.received sid
    (Relay.step config (Relay.run config events)
       (Relay.Message chan tags message self))
  = (Relay.received sid (Relay.run config events)
     ++ if Obs.isConnected sid (Relay.run config events)
        then map Relay.ChatMessage
               (Obs.published [Relay.Message chan tags message self])
        else [])%list.
Proof.
  pose proof (run_tidy events) as Htidy.
  destruct (Relay.run config events) as [c n w].
  destruct Htidy as [Hnd _]. unfold Obs.isConnected. simpl in *.
  rewrite app_nil_r, (received_app sid c n), ioEmit_received.
  rewrite (filter_eq_NoDup sid c Hnd).
  now destruct (existsb (Nat.eqb sid) c).
Qed.

Lemma published_snoc events e :
  Obs.published (events ++ [e])
  = (Obs.published events ++ Obs.published [e])%list.
Proof. unfold Obs.published. now rewrite flat_map_app. Qed.

Lemma run_app a b :
  Relay.run config (a ++ b)
  = fold_left (Relay.step config) b (Relay.run config a).
Proof. unfold Relay.run. apply fold_left_app. Qed.

Lemma fold_snoc events e s :
  fold_left (Relay.step config) (events ++ [e]) s
  = Relay.step config (fold_left (Relay.step config) events s) e.
Proof. now rewrite fold_left_app. Qed.

Lemma isConnected_In sid s :
  Obs.isConnected sid s = true <-> In sid (Relay.connected s).
Proof.
  unfold Obs.isConnected. rewrite existsb_exists. split.
  - intros (x & Hx & E). apply Nat.eqb_eq in E. now subst.
  - intros H. exists sid. split; [exact H | apply Nat.eqb_refl].
Qed.

(** X2. A client that connects and is not disconnected is sent the
    settings and then exactly the events published after it connected, in
    the order of publication, one packet each. *)
Theorem connected_client_sees_every_message pre post :
  (forall e, In e post ->
     e <> Relay.Disconnect (Relay.nextId (Relay.run config pre))) ->
  Relay.received (Relay.nextId (Relay.run config pre))
    (Relay.run config (pre ++ Relay.Connection :: post))
  = Relay.Settings config :: map Relay.ChatMessage (Obs.published post).
Proof.
  set (sid := Relay.nextId (Relay.run config pre)). intros Hstay.
  rewrite run_app. cbn [fold_left].
  set (s1 := Relay.step config (Relay.run config pre) Relay.Connection).
  assert (H1 : Obs.tidy s1) by apply step_tidy, run_tidy.
  assert (H2 : In sid (Relay.connected s1))
    by (unfold s1; simpl; apply in_or_app; right; now left).
  assert (H3 : Relay.received sid s1 = [Relay.Settings config]).
  { destruct (run_handshaken config pre) as (_ & Hnone & _).
    unfold s1, sid in *. destruct (Relay.run config pre) as [c n w].
    simpl in *. rewrite (received_app n c n). simpl.
    rewrite Nat.eqb_refl. simpl. now rewrite (Hnone n) by lia. }
  clearbody s1.
  enough (H : Obs.tidy (fold_left (Relay.step config) post s1)
              /\ In sid (Relay.connected
                           (fold_left (Relay.step config) post s1))
              /\ Relay.received sid (fold_left (Relay.step config) post s1)
                 = Relay.Settings config
                   :: map Relay.ChatMessage (Obs.published post))
    by (destruct H as (_ & _ & H); exact H).
  induction post as [|e post IH] using rev_ind.
  - simpl. auto.
  - destruct IH as (Ht & Hin & Hrec).
    { intros e' He'. apply Hstay. apply in_or_app. now left. }
    rewrite fold_snoc, published_snoc.
    set (s := fold_left (Relay.step config) post s1) in *.
    split; [now apply step_tidy|].
    assert (He : e <> Relay.Disconnect sid)
      by (apply Hstay, in_or_app; right; now left).
    destruct e as [|sid0|chan tags message self].
    + split; [simpl; apply in_or_app; now left|].
      destruct s as [c n w]. simpl in *.
      rewrite (received_app sid c n). simpl.
      destruct Ht as [_ Hlt]. specialize (Hlt sid Hin). simpl in Hlt.
      destruct (Nat.eqb_spec n sid); [lia|]. simpl.
      now rewrite Hrec, !app_nil_r.
    + split.
      * simpl. apply filter_In. split; [exact Hin|].
        apply negb_true_iff, Nat.eqb_neq. intros ->. now apply He.
      * unfold Relay.received in *. simpl. now rewrite Hrec, app_nil_r.
    + split; [exact Hin|].
      rewrite (message_step_received s _ _ _ _ sid Ht).
      apply isConnected_In in Hin. rewrite Hin, Hrec.
      now rewrite map_app.
Qed.

(** X3. Once a socket has been disconnected nothing more is sent to it,
    whatever connects or is published afterwards. *)
Theorem nothing_sent_after_disconnect pre post sid :
  sid < Relay.nextId (Relay.run config pre) ->
  Relay.received sid (Relay.run config (pre ++ Relay.Disconnect sid :: post))
  = Relay.received sid (Relay.run config pre).
Proof.
  intros Hlt. rewrite run_app. cbn [fold_left].
  set (s0 := Relay.run config pre) in *.
  set (s1 := Relay.step config s0 (Relay.Disconnect sid)).
  assert (H1 : Obs.tidy s1) by (apply step_tidy; apply run_tidy).
  assert (H2 : ~ In sid (Relay.connected s1)).
  { unfold s1. simpl. intros Hin. apply filter_In in Hin as [_ Hin].
    now rewrite Nat.eqb_refl in Hin. }
  assert (H3 : sid < Relay.nextId s1) by exact Hlt.
  assert (H4 : Relay.received sid s1 = Relay.received sid s0) by reflexivity.
  rewrite <- H4. clearbody s1. clear H4 Hlt.
  enough (H : Obs.tidy (fold_left (Relay.step config) post s1)
              /\ ~ In sid (Relay.connected
                             (fold_left (Relay.step config) post s1))
              /\ sid < Relay.nextId (fold_left (Relay.step config) post s1)
              /\ Relay.received sid (fold_left (Relay.step config) post s1)
                 = Relay.received sid s1)
    by (destruct H as (_ & _ & _ & H); exact H).
  induction post as [|e post IH] using rev_ind; [simpl; auto|].
  destruct IH as (Ht & Hout & Hn & Hrec).
  rewrite fold_snoc.
  set (s := fold_left (Relay.step config) post s1) in *.
  split; [now apply step_tidy|].
  destruct e as [|sid0|chan tags message self].
  - destruct s as [c n w]. simpl in *. split; [|split; [lia|]].
    + intros Hin. apply in_app_or in Hin as [Hin|[E|[]]]; [tauto | lia].
    + rewrite (received_app sid c n). simpl.
      destruct (Nat.eqb_spec n sid); [lia|]. simpl.
      now rewrite app_nil_r.
  - simpl. split; [|split; [exact Hn | exact Hrec]].
    intros Hin. apply filter_In in Hin as [Hin _]. tauto.
  - split; [exact Hout|]. split; [exact Hn|].
    rewrite (message_step_received s _ _ _ _ sid Ht).
    destruct (Obs.isConnected sid s) eqn:E.
    + apply isConnected_In in E. tauto.
    + now rewrite app_nil_r.
Qed.

End RelayDelivery.

(** ** Strings, case and paths *)

Lemma lowerUnit_dot c :
  Ascii.eqb (Js.lowerUnit c) "." = Ascii.eqb c "."
  /\ Ascii.eqb (Js.lowerUnit c) "/" = Ascii.eqb c "/"
  /\ Js.lowerUnit (Js.lowerUnit c) = Js.lowerUnit c.
Proof. destruct c as [[] [] [] [] [] [] [] []]; repeat split. Qed.

Lemma toLowerCase_app a b :
  Js.toLowerCase (a ++ b) = Js.toLowerCase a ++ Js.toLowerCase b.
Proof. induction a as [|c a IH]; simpl; [reflexivity | now rewrite IH]. Qed.

Lemma toLowerCase_length a :
  String.length (Js.toLowerCase a) = String.length a.
Proof. induction a as [|c a IH]; simpl; [reflexivity | now rewrite IH]. Qed.

Lemma toLowerCase_idem a :
  Js.toLowerCase (Js.toLowerCase a) = Js.toLowerCase a.
Proof.
  induction a as [|c a IH]; simpl; [reflexivity|].
  rewrite IH. now destruct (lowerUnit_dot c) as (_ & _ & ->).
Qed.

Lemma hasSeparator_lower a :
  Path.hasSeparator (Js.toLowerCase a) = Path.hasSeparator a.
Proof.
  unfold Path.hasSeparator, Path.isSlash.
  induction a as [|c a IH]; simpl; [reflexivity|].
  rewrite IH. now destruct (lowerUnit_dot c) as (_ & -> & _).
Qed.

Lemma append_nil_r a : a ++ EmptyString = a.
Proof. induction a as [|c a IH]; simpl; [reflexivity | now rewrite IH]. Qed.

Lemma append_assoc a b c : (a ++ b) ++ c = a ++ (b ++ c).
Proof. induction a as [|x a IH]; simpl; [reflexivity | now rewrite IH]. Qed.

(** Two splittings of one string at the same place are the same. *)
Lemma append_inj a b c d :
  a ++ b = c ++ d -> String.length a = String.length c -> a = c /\ b = d.
Proof.
  revert c. induction a as [|x a IH]; intros [|y c] H L; simpl in *;
    try discriminate; [now split|].
  inversion H; subst. destruct (IH c H2) as [-> ->]; [lia | now split].
Qed.

Lemma substring_whole s : substring 0 (String.length s) s = s.
Proof. induction s as [|c s IH]; simpl; [reflexivity | now rewrite IH]. Qed.

Lemma substring_prefix a b : substring 0 (String.length a) (a ++ b) = a.
Proof.
  induction a as [|c a IH]; simpl; [now destruct b | now rewrite IH].
Qed.

Lemma substring_suffix a b :
  substring (String.length a) (String.length b) (a ++ b) = b.
Proof. induction a as [|c a IH]; simpl; [apply substring_whole | exact IH]. Qed.

Lemma substring_split s n :
  n <= String.length s ->
  s = substring 0 n s ++ substring n (String.length s - n) s.
Proof.
  revert n. induction s as [|c s IH]; intros [|n] H; simpl in *;
    try reflexivity; try lia.
  - now rewrite substring_whole.
  - now rewrite <- IH by lia.
Qed.

Lemma substring_length s n k :
  n + k <= String.length s -> String.length (substring n k s) = k.
Proof.
  revert n k. induction s as [|c s IH]; intros [|n] [|k] H; simpl in *;
    try reflexivity; try lia.
  - now rewrite IH by lia.
  - now rewrite IH by lia.
  - now rewrite IH by lia.
Qed.

Lemma endsWith_app a b : Js.endsWith (a ++ b) b = true.
Proof.
  unfold Js.endsWith. rewrite length_append.
  replace (String.length a + String.length b - String.length b)
    with (String.length a) by lia.
  rewrite substring_suffix, String.eqb_refl.
  apply andb_true_iff. split; [apply Nat.leb_le; lia | reflexivity].
Qed.

(** A string ends with a suffix when it is something followed by it. *)
Lemma endsWith_split s suffix :
  Js.endsWith s suffix = true ->
  s = substring 0 (String.length s - String.length suffix) s ++ suffix.
Proof.
  unfold Js.endsWith. intros H. apply andb_true_iff in H as [Hle Heq].
  apply Nat.leb_le in Hle. apply String.eqb_eq in Heq.
  rewrite (substring_split s (String.length s - String.length suffix)) at 1
    by lia.
  f_equal.
  replace (String.length s - (String.length s - String.length suffix))
    with (String.length suffix) by lia.
  exact Heq.
Qed.

Lemma list_ascii_app a b :
  list_ascii_of_string (a ++ b)
  = (list_ascii_of_string a ++ list_ascii_of_string b)%list.
Proof. induction a as [|c a IH]; simpl; [reflexivity | now rewrite IH]. Qed.

Lemma takeWhile_all {A : Type} (p : A -> bool) l :
  forallb p l = true -> Path.takeWhile p l = l.
Proof.
  induction l as [|x xs IH]; simpl; [reflexivity|].
  intros H. apply andb_true_iff in H as [-> H]. now rewrite IH.
Qed.

Lemma takeWhile_app_stop {A : Type} (p : A -> bool) l x r :
  forallb p l = true -> p x = false ->
  Path.takeWhile p (l ++ x :: r) = l
  /\ Path.dropWhile p (l ++ x :: r) = x :: r.
Proof.
  intros Hl Hx. induction l as [|y ys IH]; simpl.
  - now rewrite Hx.
  - simpl in Hl. apply andb_true_iff in Hl as [-> Hl].
    destruct (IH Hl) as [-> ->]. now split.
Qed.

Lemma forallb_rev {A : Type} (p : A -> bool) l :
  forallb p (rev l) = forallb p l.
Proof.
  induction l as [|x xs IH]; simpl; [reflexivity|].
  rewrite forallb_app, IH. simpl. rewrite andb_true_r. apply andb_comm.
Qed.

Lemma hasSeparator_forallb x :
  Path.hasSeparator x = false ->
  forallb (fun c => negb (Path.isSlash c)) (list_ascii_of_string x) = true.
Proof.
  unfold Path.hasSeparator. induction (list_ascii_of_string x) as [|c l IH];
    simpl; [reflexivity|].
  intros H. apply orb_false_iff in H as [-> H]. now rewrite IH.
Qed.

(** A name without separator is its own last component. *)
Lemma lastComponentRev_plain x :
  Path.hasSeparator x = false ->
  Path.lastComponentRev x = rev (list_ascii_of_string x).
Proof.
  intros H. unfold Path.lastComponentRev.
  pose proof (hasSeparator_forallb x H) as Hall.
  rewrite <- forallb_rev in Hall.
  destruct (rev (list_ascii_of_string x)) as [|c l] eqn:E; [reflexivity|].
  simpl in Hall. apply andb_true_iff in Hall as [Hc Hl].
  cbn [Path.dropWhile]. apply negb_true_iff in Hc. rewrite Hc.
  apply takeWhile_all. simpl. now rewrite Hc, Hl.
Qed.

Lemma lastComponent_plain x :
  Path.hasSeparator x = false -> Path.lastComponent x = x.
Proof.
  intros H. unfold Path.lastComponent.
  now rewrite lastComponentRev_plain, rev_involutive,
    string_of_list_ascii_of_string.
Qed.

Lemma dotFree_lower t : Obs.dotFree (Js.toLowerCase t) = Obs.dotFree t.
Proof.
  unfold Obs.dotFree, Path.isSlash.
  induction t as [|c t IH]; simpl; [reflexivity|].
  rewrite IH. now destruct (lowerUnit_dot c) as (-> & -> & _).
Qed.

Lemma dotFree_facts t :
  Obs.dotFree t = true ->
  Path.hasSeparator t = false
  /\ forallb (fun c => negb (Ascii.eqb c ".")) (list_ascii_of_string t) = true.
Proof.
  unfold Obs.dotFree, Path.hasSeparator.
  induction (list_ascii_of_string t) as [|c l IH]; simpl; [now split|].
  intros H. apply andb_true_iff in H as [Hc Hl].
  apply andb_true_iff in Hc as [Hdot Hslash].
  destruct (IH Hl) as [-> ->]. rewrite Hdot.
  apply negb_true_iff in Hslash. now rewrite Hslash.
Qed.

(** The four extensions, and their spellings in other cases, are a dot
    followed by characters that are neither dots nor separators. *)
Lemma extension_shape E e :
  In e Fonts.extensions -> Js.toLowerCase E = e ->
  exists t, E = String "." t /\ Obs.dotFree t = true /\ t <> EmptyString.
Proof.
  intros He HE.
  assert (exists t0, e = String "." t0 /\ Obs.dotFree t0 = true
                     /\ t0 <> EmptyString) as (t0 & -> & Ht0 & Hne).
  { simpl in He. destruct He as [<-|[<-|[<-|[<-|[]]]]];
      eexists; (split; [reflexivity|]);
      (split; [reflexivity | discriminate]). }
  destruct E as [|c t]; [discriminate|]. simpl in HE.
  inversion HE as [[Hc Ht]]. exists t.
  assert (c = "."%char) as ->.
  { apply Ascii.eqb_eq. destruct (lowerUnit_dot c) as (<- & _ & _).
    rewrite Hc. reflexivity. }
  split; [reflexivity|]. split.
  - now rewrite <- dotFree_lower, Ht.
  - intros ->. now apply Hne.
Qed.

Lemma hasSeparator_with_extension stem t :
  Path.hasSeparator stem = false -> Obs.dotFree t = true ->
  Path.hasSeparator (stem ++ String "." t) = false.
Proof.
  intros Hs Ht. rewrite hasSeparator_app, Hs.
  destruct (dotFree_facts t Ht) as [Hsep _].
  unfold Path.hasSeparator in *. simpl. exact Hsep.
Qed.

Lemma lastComponentRev_with_extension stem t :
  Path.hasSeparator stem = false -> Obs.dotFree t = true ->
  Path.lastComponentRev (stem ++ String "." t)
  = (rev (list_ascii_of_string t)
     ++ "."%char :: rev (list_ascii_of_string stem))%list.
Proof.
  intros Hs Ht.
  rewrite lastComponentRev_plain
    by now apply hasSeparator_with_extension.
  rewrite list_ascii_app, rev_app_distr. simpl.
  now rewrite <- app_assoc.
Qed.

(** [extname] of a plain name that has something before its extension. *)
Lemma extname_with_extension stem t :
  Path.hasSeparator stem = false -> stem <> EmptyString ->
  Obs.dotFree t = true -> t <> EmptyString ->
  Path.extname (stem ++ String "." t) = String "." t.
Proof.
  intros Hs Hne Ht Htne. unfold Path.extname.
  rewrite lastComponentRev_with_extension by assumption.
  destruct (dotFree_facts t Ht) as [_ Hdots].
  rewrite <- forallb_rev in Hdots.
  destruct (takeWhile_app_stop (fun c => negb (Ascii.eqb c "."))
              (rev (list_ascii_of_string t)) "."%char
              (rev (list_ascii_of_string stem)) Hdots eq_refl) as [-> ->].
  destruct (rev (list_ascii_of_string stem)) as [|y ys] eqn:E.
  { exfalso. apply Hne. apply (f_equal (@rev ascii)) in E.
    rewrite rev_involutive in E. simpl in E.
    rewrite <- (string_of_list_ascii_of_string stem), E. reflexivity. }
  rewrite lastComponent_plain by now apply hasSeparator_with_extension.
  assert (Hlen : 3 <= String.length (stem ++ String "." t)).
  { rewrite length_append. simpl.
    destruct stem; [now elim Hne|]. destruct t; [now elim Htne|].
    simpl. lia. }
  destruct (String.eqb_spec (stem ++ String "." t) "..") as [E2|_].
  { rewrite E2 in Hlen. simpl in Hlen. lia. }
  now rewrite rev_involutive, string_of_list_ascii_of_string.
Qed.

(** [extname] of a name that is nothing but an extension. *)
Lemma extname_bare_extension t :
  Obs.dotFree t = true -> Path.extname (String "." t) = EmptyString.
Proof.
  intros Ht. unfold Path.extname.
  change (String "." t) with (EmptyString ++ String "." t).
  rewrite lastComponentRev_with_extension by (try reflexivity; assumption).
  change (rev (list_ascii_of_string EmptyString)) with (@nil ascii).
  destruct (dotFree_facts t Ht) as [_ Hdots].
  rewrite <- forallb_rev in Hdots.
  now destruct (takeWhile_app_stop (fun c => negb (Ascii.eqb c "."))
                  (rev (list_ascii_of_string t)) "."%char [] Hdots eq_refl)
    as [-> ->].
Qed.

Lemma basename_strip stem E :
  Path.hasSeparator (stem ++ E) = false -> stem <> EmptyString ->
  E <> EmptyString -> Path.basename (stem ++ E) E = stem.
Proof.
  intros Hs Hne HE. unfold Path.basename.
  destruct (String.eqb_spec E (stem ++ E)) as [Heq|_].
  { exfalso. apply (f_equal String.length) in Heq.
    rewrite length_append in Heq. destruct stem; [now elim Hne|].
    simpl in Heq. lia. }
  rewrite lastComponent_plain by exact Hs.
  rewrite endsWith_app, length_append.
  assert (0 < String.length E) by (destruct E; [now elim HE | simpl; lia]).
  assert (0 < String.length stem)
    by (destruct stem; [now elim Hne | simpl; lia]).
  destruct (Nat.ltb_spec 0 (String.length E)); [|lia].
  destruct (Nat.ltb_spec (String.length E)
              (String.length stem + String.length E)); [|lia].
  simpl.
  replace (String.length stem + String.length E - String.length E)
    with (String.length stem) by lia.
  apply substring_prefix.
Qed.

Lemma basename_keep x suffix :
  Path.hasSeparator x = false -> Js.endsWith x suffix = false ->
  Path.basename x suffix = x.
Proof.
  intros Hs He. unfold Path.basename.
  destruct (String.eqb_spec suffix x) as [->|_].
  { pose proof (endsWith_app EmptyString x) as H. simpl in H. congruence. }
  rewrite lastComponent_plain by exact Hs. rewrite He.
  now rewrite !andb_false_r.
Qed.

Lemma basename_no_suffix x :
  Path.hasSeparator x = false -> Path.basename x EmptyString = x.
Proof.
  intros Hs. unfold Path.basename.
  rewrite lastComponent_plain by exact Hs.
  destruct (String.eqb_spec EmptyString x) as [<-|_]; reflexivity.
Qed.

Lemma includes_In l s : Fonts.includes l s = true <-> In s l.
Proof.
  unfold Fonts.includes. rewrite existsb_exists. split.
  - intros (x & Hx & E). apply String.eqb_eq in E. now subst.
  - intros H. exists s. split; [exact H | apply String.eqb_refl].
Qed.

Lemma extensions_lower e : In e Fonts.extensions -> Js.toLowerCase e = e.
Proof.
  simpl. intros [<-|[<-|[<-|[<-|[]]]]]; reflexivity.
Qed.

Lemma eqb_length_differs a b :
  String.length a <> String.length b -> String.eqb a b = false.
Proof.
  intros H. destruct (String.eqb_spec a b) as [->|]; [now elim H|reflexivity].
Qed.

Lemma nonempty_length s : s <> EmptyString <-> 0 < String.length s.
Proof. destruct s; simpl; split; intros; try lia; congruence. Qed.

(** A string whose lower-case form splits in two splits the same way. *)
Lemma split_by_lower f pre e :
  Js.toLowerCase f = pre ++ e ->
  exists stem E, f = stem ++ E /\ Js.toLowerCase stem = pre
                 /\ Js.toLowerCase E = e.
Proof.
  intros H.
  assert (Hlen : String.length f = String.length pre + String.length e)
    by now rewrite <- toLowerCase_length, H, length_append.
  exists (substring 0 (String.length pre) f),
         (substring (String.length pre) (String.length e) f).
  assert (Hf : f = substring 0 (String.length pre) f
                   ++ substring (String.length pre) (String.length e) f).
  { replace (String.length e) with (String.length f - String.length pre)
      by lia.
    apply substring_split. lia. }
  split; [exact Hf|].
  rewrite Hf, toLowerCase_app in H.
  apply append_inj in H; [exact H|].
  rewrite toLowerCase_length. apply substring_length. lia.
Qed.

(** The name [validateFont] derives from a font file of the directory. *)
Lemma fontName_of_entry f :
  Path.hasSeparator f = false -> Fonts.isFontFile f = true ->
  exists stem E e,
    f = stem ++ E /\ In e Fonts.extensions /\ Js.toLowerCase E = e
    /\ Path.basename f (Path.extname f)
       = if String.eqb stem EmptyString then f else stem.
Proof.
  intros Hs Hfont. unfold Fonts.isFontFile in Hfont.
  apply existsb_exists in Hfont as (e & He & Hends).
  apply endsWith_split in Hends.
  destruct (split_by_lower f _ e Hends) as (stem & E & Hf & _ & HE).
  exists stem, E, e. repeat (split; [assumption|]).
  destruct (extension_shape E e He HE) as (t & -> & Ht & Htne).
  subst f. rewrite hasSeparator_app in Hs.
  apply orb_false_iff in Hs as [Hs1 Hs2].
  destruct (String.eqb_spec stem EmptyString) as [->|Hne].
  - simpl. rewrite extname_bare_extension by exact Ht.
    apply basename_no_suffix. exact Hs2.
  - rewrite extname_with_extension by assumption.
    apply basename_strip; [|exact Hne|discriminate].
    now apply hasSeparator_with_extension.
Qed.

(** An entry equal, up to case, to a name followed by a font extension is
    a font file, and [validateFont] derives the name from it up to case. *)
Lemma entry_matching_name f name e :
  Path.hasSeparator f = false -> name <> EmptyString ->
  In e Fonts.extensions -> Js.sameLower f (name ++ e) = true ->
  Fonts.isFontFile f = true
  /\ Js.sameLower (Path.basename f (Path.extname f)) name = true
  /\ Js.toLowerCase (Path.extname f) = e.
Proof.
  intros Hs Hne He Hsame. unfold Js.sameLower in Hsame.
  apply String.eqb_eq in Hsame.
  rewrite toLowerCase_app, (extensions_lower e He) in Hsame.
  destruct (split_by_lower f _ e Hsame) as (stem & E & Hf & Hstem & HE).
  destruct (extension_shape E e He HE) as (t & -> & Ht & Htne).
  assert (Hstem_ne : stem <> EmptyString).
  { apply nonempty_length. rewrite <- toLowerCase_length, Hstem,
      toLowerCase_length. now apply nonempty_length. }
  subst f. rewrite hasSeparator_app in Hs.
  apply orb_false_iff in Hs as [Hs1 Hs2].
  split; [|split].
  - unfold Fonts.isFontFile. apply existsb_exists. exists e.
    split; [exact He|]. rewrite toLowerCase_app, HE. apply endsWith_app.
  - rewrite extname_with_extension by assumption.
    rewrite basename_strip;
      [|now apply hasSeparator_with_extension|exact Hstem_ne|discriminate].
    unfold Js.sameLower. rewrite Hstem. apply String.eqb_refl.
  - now rewrite extname_with_extension by assumption.
Qed.

(** How the loop came by the path it returns. *)
Lemma tryExtensions_found fs base exts p :
  fst (Fonts.tryExtensions base exts fs) = Fs.Returned (Some p) ->
  exists e,
    In e exts
    /\ ((p = Fs.InFontsDir (base ++ e) /\ Fs.present fs p = true)
        \/ (exists m, In m (Ref.filesOf fs) /\ p = Fs.InFontsDir m
                      /\ Js.sameLower m (base ++ e) = true)).
Proof.
  induction exts as [|e rest IH]; [discriminate|].
  rewrite tryExtensions_step.
  destruct (Fs.present fs (Fs.InFontsDir (base ++ e))) eqn:Hp.
  - intros H. inversion H; subst. exists e. split; [now left|]. now left.
  - destruct (find _ _) as [m|] eqn:Hfind.
    + intros H. inversion H; subst. apply find_some in Hfind as [H1 H2].
      exists e. split; [now left|]. right. now exists m.
    + intros H. destruct (IH H) as (e' & He' & Hcase).
      exists e'. split; [now right | exact Hcase].
Qed.

Lemma fontsRoute_stream fs font mime p :
  fst (Fonts.fontsRoute font fs) = Fs.Returned (Fonts.Stream mime p) ->
  fst (Fonts.tryExtensions (Fonts.stripExtension font) Fonts.extensions fs)
  = Fs.Returned (Some p)
  /\ mime = match Fonts.assoc (Js.toLowerCase (Path.extname (Fonts.relOf p)))
                    Fonts.mimeMap with
            | Some m => m
            | None => "application/octet-stream"
            end.
Proof.
  rewrite fontsRoute_result.
  destruct (fst (Fonts.tryExtensions _ _ fs)) as [[q|]|c]; try discriminate.
  intros H. inversion H; subst. now split.
Qed.

(** An existing plain path, or a match of the scan, is an entry equal to
    the candidate up to case. *)
Lemma found_entry fs base e p :
  Fs.plainName (base ++ e) = true ->
  (p = Fs.InFontsDir (base ++ e) /\ Fs.present fs p = true)
  \/ (exists m, In m (Ref.filesOf fs) /\ p = Fs.InFontsDir m
                /\ Js.sameLower m (base ++ e) = true) ->
  exists f, In f (Ref.filesOf fs) /\ Js.sameLower f (base ++ e) = true.
Proof.
  intros Hplain [[-> Hp]|(m & Hm & _ & Hsame)]; [|now exists m].
  unfold Fs.present, Fs.entryOf, Ref.filesOf in *. rewrite Hplain in Hp.
  destruct (Fs.listing fs) as [files|]; [|discriminate].
  destruct (find _ files) as [g|] eqn:Hg; [|discriminate].
  apply find_some in Hg as [Hg1 Hg2]. exists g. split; [exact Hg1|].
  now apply sameName_sameLower in Hg2.
Qed.

(** ** Fonts: what the route and the validation guarantee *)

Lemma fontsRoute_returns fs font :
  exists r, fst (Fonts.fontsRoute font fs) = Fs.Returned r.
Proof.
  rewrite fontsRoute_result.
  destruct (tryExtensions_returns fs (Fonts.stripExtension font)
              Fonts.extensions) as [[p|] ->]; eauto.
Qed.

Lemma validateFont_returns fs font :
  exists b, fst (Fonts.validateFont font fs) = Fs.Returned b.
Proof.
  rewrite validateFont_result.
  destruct (_ =? _); [eauto|]. destruct (Fs.listing fs); eauto.
Qed.

Lemma validateFont_listable fs font :
  Obs.absentOrListable fs ->
  exists b calls, Fonts.validateFont font fs = (Fs.Returned b, calls).
Proof.
  intros Hdir. unfold Fonts.validateFont.
  destruct (Js.toLowerCase font =? "arial"); [unfold Fs.ret; eauto|].
  unfold Fs.bind, Fs.existsSync, Fs.ret.
  destruct Hdir as [Habsent|[files Hfiles]].
  - rewrite Habsent. simpl. eauto.
  - assert (Hl : Fs.listing fs = Some files).
    { unfold Fs.readdirSync in Hfiles. simpl in Hfiles.
      destruct (Fs.listing fs); congruence. }
    unfold Fs.present, Fs.readdirSync. rewrite Hl. simpl. rewrite Hl.
    match goal with |- context [if negb ?c then _ else _] =>
      destruct c end; simpl; eauto.
Qed.

(** [readdirSync] is called on the fonts directory only, and only in a
    state where [existsSync(fontsDir)] holds. *)
Lemma tryExtensions_readdir_guarded fs fontName exts p :
  In (Fs.ReaddirSync p) (snd (Fonts.tryExtensions fontName exts fs)) ->
  p = Fs.FontsDir /\ Fs.present fs Fs.FontsDir = true.
Proof.
  induction exts as [|e rest IH]; [intros []|].
  cbn [Fonts.tryExtensions].
  unfold Fs.bind, Fs.existsSync, Fs.ret.
  destruct (Fs.present fs (Fs.InFontsDir (fontName ++ e)));
    [simpl; intros [H|[]]; discriminate|].
  destruct (Fs.present fs Fs.FontsDir) eqn:Hthere;
    unfold Fs.readdirSync; destruct (Fs.listing fs);
    try match goal with |- context [find ?f ?l] =>
          destruct (find f l) end;
    destruct (Fonts.tryExtensions fontName rest fs) as [[r|c] t];
    simpl in *; intuition (try discriminate; try congruence).
Qed.

Lemma fontsRoute_readdir_guarded fs font p :
  In (Fs.ReaddirSync p) (snd (Fonts.fontsRoute font fs)) ->
  p = Fs.FontsDir /\ Fs.present fs Fs.FontsDir = true.
Proof.
  intros H. apply (tryExtensions_readdir_guarded fs
                     (Fonts.stripExtension font) Fonts.extensions).
  revert H. unfold Fonts.fontsRoute, Fs.bind, Fs.ret.
  destruct (Fonts.tryExtensions _ _ fs) as [[[q|]|c] t]; simpl;
    rewrite ?app_nil_r; trivial.
Qed.

Lemma validateFont_readdir_guarded fs font p :
  In (Fs.ReaddirSync p) (snd (Fonts.validateFont font fs)) ->
  p = Fs.FontsDir /\ Fs.present fs Fs.FontsDir = true.
Proof.
  unfold Fonts.validateFont.
  destruct (Js.toLowerCase font =? "arial"); [intros []|].
  unfold Fs.bind, Fs.existsSync, Fs.ret.
  destruct (Fs.present fs Fs.FontsDir) eqn:Hthere;
    unfold Fs.readdirSync; destruct (Fs.listing fs) eqn:Hl; simpl;
    rewrite ?Hl;
    try match goal with |- context [if negb ?c then _ else _] =>
          destruct c end;
    simpl; intuition (try discriminate; try congruence).
Qed.

(** X4. [readdirSync], which throws on a missing directory, is only
    reached behind [existsSync(fontsDir)]: the route and the validation
    call it on the fonts directory alone and only where that directory
    exists.  So when the fonts path is absent, or is a directory that can
    be listed, neither of them throws. *)
Theorem fonts_never_throw fs font :
  Obs.absentOrListable fs ->
  (exists r, fst (Fonts.fontsRoute font fs) = Fs.Returned r)
  /\ (exists b, fst (Fonts.validateFont font fs) = Fs.Returned b)
  /\ (forall p,
        In (Fs.ReaddirSync p)
           (snd (Fonts.fontsRoute font fs)
            ++ snd (Fonts.validateFont font fs))%list ->
        p = Fs.FontsDir /\ Fs.present fs Fs.FontsDir = true).
Proof.
  intros Hdir. split; [|split].
  - rewrite fontsRoute_result.
    destruct (tryExtensions_returns fs (Fonts.stripExtension font)
                Fonts.extensions) as [[p|] ->]; eauto.
  - destruct (validateFont_listable fs font Hdir) as (b & calls & ->).
    now exists b.
  - intros p H. apply in_app_or in H as [H|H].
    + now apply (fontsRoute_readdir_guarded fs font).
    + now apply (validateFont_readdir_guarded fs font).
Qed.

Lemma fonts_never_throw_witness :
  let fs := {| Fs.listing := Some ["lato.ttf"];
               Fs.caseInsensitive := false;
               Fs.elsewhere := fun _ => false |} in
  Obs.absentOrListable fs
  /\ In (Fs.ReaddirSync Fs.FontsDir) (snd (Fonts.fontsRoute "nofont" fs))
  /\ (exists r, fst (Fonts.fontsRoute "nofont" fs) = Fs.Returned r)
  /\ (exists b, fst (Fonts.validateFont "nofont" fs) = Fs.Returned b)
  /\ (forall p,
        In (Fs.ReaddirSync p)
           (snd (Fonts.fontsRoute "nofont" fs)
            ++ snd (Fonts.validateFont "nofont" fs))%list ->
        p = Fs.FontsDir /\ Fs.present fs Fs.FontsDir = true).
Proof.
  intros fs.
  assert (Hdir : Obs.absentOrListable fs)
    by (right; exists ["lato.ttf"]; reflexivity).
  split; [exact Hdir|]. split; [simpl; tauto|].
  exact (fonts_never_throw fs "nofont" Hdir).
Defined.

(** X5. Whatever is requested, a separator-laden name included, the file
    the route streams has a name that passes the font-file pattern of
    line 98: it ends, up to case, with .ttf, .otf, .woff or .woff2. *)
Theorem fontsRoute_streams_font_files_only fs font mime p :
  fst (Fonts.fontsRoute font fs) = Fs.Returned (Fonts.Stream mime p) ->
  Fonts.isFontFile (Fonts.relOf p) = true.
Proof.
  intros H. apply fontsRoute_stream in H as [H _].
  apply tryExtensions_found in H as (e & He & Hcase).
  assert (Hlow : Js.toLowerCase (Fonts.relOf p)
                 = Js.toLowerCase (Fonts.stripExtension font) ++ e).
  { transitivity (Js.toLowerCase (Fonts.stripExtension font ++ e)).
    - destruct Hcase as [[-> _]|(m & _ & -> & Hsame)]; [reflexivity|].
      now apply String.eqb_eq in Hsame.
    - now rewrite toLowerCase_app, (extensions_lower e He). }
  unfold Fonts.isFontFile. apply existsb_exists. exists e.
  split; [exact He|]. rewrite Hlow. apply endsWith_app.
Qed.

Lemma fontsRoute_streams_font_files_only_witness :
  let fs := {| Fs.listing := Some ["Roboto.OTF"];
               Fs.caseInsensitive := false;
               Fs.elsewhere := fun _ => false |} in
  fst (Fonts.fontsRoute "roboto" fs)
  = Fs.Returned (Fonts.Stream "font/otf" (Fs.InFontsDir "Roboto.OTF"))
  /\ Fonts.isFontFile "Roboto.OTF" = true.
Proof.
  intros fs. split; [reflexivity|].
  exact (fontsRoute_streams_font_files_only fs "roboto" "font/otf"
           (Fs.InFontsDir "Roboto.OTF") eq_refl).
Defined.

Lemma mime_of_extension e :
  In e Fonts.extensions -> exists m, Fonts.assoc e Fonts.mimeMap = Some m.
Proof.
  simpl. intros [<-|[<-|[<-|[<-|[]]]]]; eexists; reflexivity.
Qed.

(** The content type computed for a name that equals, up to case, a
    separator-free name followed by a font extension. *)
Lemma mime_of_match x base e :
  Path.hasSeparator base = false -> base <> EmptyString ->
  In e Fonts.extensions -> Js.sameLower x (base ++ e) = true ->
  Fonts.assoc (Js.toLowerCase (Path.extname x)) Fonts.mimeMap
  = Fonts.assoc e Fonts.mimeMap.
Proof.
  intros Hs Hne He Hsame.
  assert (Hx : Path.hasSeparator x = false).
  { pose proof Hsame as E. apply String.eqb_eq in E.
    rewrite <- hasSeparator_lower, E, hasSeparator_lower, hasSeparator_app.
    rewrite Hs. simpl in He.
    destruct He as [<-|[<-|[<-|[<-|[]]]]]; reflexivity. }
  now destruct (entry_matching_name x base e Hx Hne He Hsame) as (_ & _ & ->).
Qed.

(** X6. When the name looked up (the request without its font extension)
    is non-empty and holds no separator, the content type sent is the font
    type of the extension under which the file was found; the generic
    application/octet-stream is never used. *)
Theorem fontsRoute_content_type fs font mime p :
  Path.hasSeparator (Fonts.stripExtension font) = false ->
  Fonts.stripExtension font <> EmptyString ->
  fst (Fonts.fontsRoute font fs) = Fs.Returned (Fonts.Stream mime p) ->
  exists e,
    In e Fonts.extensions
    /\ Js.sameLower (Fonts.relOf p) (Fonts.stripExtension font ++ e) = true
    /\ Fonts.assoc e Fonts.mimeMap = Some mime.
Proof.
  intros Hs Hne H. apply fontsRoute_stream in H as [H ->].
  apply tryExtensions_found in H as (e & He & Hcase).
  assert (Hsame : Js.sameLower (Fonts.relOf p)
                    (Fonts.stripExtension font ++ e) = true).
  { destruct Hcase as [[-> _]|(m & _ & -> & Hsame)];
      [apply sameLower_refl | exact Hsame]. }
  exists e. split; [exact He|]. split; [exact Hsame|].
  rewrite (mime_of_match _ _ e Hs Hne He Hsame).
  now destruct (mime_of_extension e He) as [m ->].
Qed.

Lemma fontsRoute_content_type_witness :
  let fs := {| Fs.listing := Some ["Roboto.WOFF2"];
               Fs.caseInsensitive := false;
               Fs.elsewhere := fun _ => false |} in
  Path.hasSeparator (Fonts.stripExtension "roboto.ttf") = false
  /\ Fonts.stripExtension "roboto.ttf" <> EmptyString
  /\ fst (Fonts.fontsRoute "roboto.ttf" fs)
     = Fs.Returned (Fonts.Stream "font/woff2" (Fs.InFontsDir "Roboto.WOFF2"))
  /\ exists e,
      In e Fonts.extensions
      /\ Js.sameLower "Roboto.WOFF2" (Fonts.stripExtension "roboto.ttf" ++ e)
         = true
      /\ Fonts.assoc e Fonts.mimeMap = Some "font/woff2".
Proof.
  intros fs.
  split; [reflexivity|]. split; [discriminate|]. split; [reflexivity|].
  apply (fontsRoute_content_type fs "roboto.ttf" "font/woff2"
           (Fs.InFontsDir "Roboto.WOFF2"));
    [reflexivity | discriminate | reflexivity].
Defined.

Lemma tryExtensions_skip_many fs base pre rest :
  Path.hasSeparator base = false ->
  (forall e, In e pre -> In e Fonts.extensions) ->
  (forall f e, In f (Ref.filesOf fs) -> In e pre ->
     Js.sameLower f (base ++ e) = false) ->
  fst (Fonts.tryExtensions base (pre ++ rest) fs)
  = fst (Fonts.tryExtensions base rest fs).
Proof.
  intros Hs. induction pre as [|e pre IH]; intros Hext Hnone; [reflexivity|].
  simpl app. rewrite tryExtensions_skip.
  - apply IH; intros; [apply Hext | apply Hnone]; auto; now right.
  - apply plainName_with_extension; [exact Hs | apply Hext; now left].
  - intros f Hf. apply Hnone; [exact Hf | now left].
Qed.

(** X7. The extensions are tried in the order .ttf, .otf, .woff, .woff2
    and the first one under which the directory holds the name, up to
    case, decides both the file streamed and its content type, whatever
    files exist under later extensions. *)
Theorem fontsRoute_first_extension_wins fs font pre e post f :
  Fonts.extensions = (pre ++ e :: post)%list ->
  Path.hasSeparator (Fonts.stripExtension font) = false ->
  Fonts.stripExtension font <> EmptyString ->
  (forall f' e', In f' (Ref.filesOf fs) -> In e' pre ->
     Js.sameLower f' (Fonts.stripExtension font ++ e') = false) ->
  In f (Ref.filesOf fs) ->
  Js.sameLower f (Fonts.stripExtension font ++ e) = true ->
  exists mime p,
    fst (Fonts.fontsRoute font fs) = Fs.Returned (Fonts.Stream mime p)
    /\ Js.sameLower (Fonts.relOf p) (Fonts.stripExtension font ++ e) = true
    /\ Fonts.assoc e Fonts.mimeMap = Some mime.
Proof.
  intros Hext Hs Hne Hnone Hf Hsame.
  assert (He : In e Fonts.extensions)
    by (rewrite Hext; apply in_or_app; right; now left).
  assert (Hpre : forall e', In e' pre -> In e' Fonts.extensions)
    by (intros e' H; rewrite Hext; apply in_or_app; now left).
  destruct (mime_of_extension e He) as [m Hm].
  assert (Hloop : exists p,
             fst (Fonts.tryExtensions (Fonts.stripExtension font)
                    Fonts.extensions fs) = Fs.Returned (Some p)
             /\ Js.sameLower (Fonts.relOf p)
                  (Fonts.stripExtension font ++ e) = true).
  { rewrite Hext, tryExtensions_skip_many by assumption.
    rewrite tryExtensions_step.
    destruct (Fs.present _ _).
    - eexists. split; [reflexivity | apply sameLower_refl].
    - destruct (find_one_true
                  (fun g => Js.sameLower g (Fonts.stripExtension font ++ e))
                  (Ref.filesOf fs) f Hf Hsame) as [g Hg].
      rewrite Hg. apply find_some in Hg as [_ Hg].
      eexists. split; [reflexivity | exact Hg]. }
  destruct Hloop as (p & Hloop & Hp).
  exists m, p. rewrite fontsRoute_result, Hloop.
  rewrite (mime_of_match _ _ e Hs Hne He Hp), Hm. auto.
Qed.

Lemma fontsRoute_first_extension_wins_witness :
  let fs := {| Fs.listing := Some ["lato.woff2"; "LATO.otf"; "lato.txt"];
               Fs.caseInsensitive := false;
               Fs.elsewhere := fun _ => false |} in
  exists mime p,
    fst (Fonts.fontsRoute "Lato" fs) = Fs.Returned (Fonts.Stream mime p)
    /\ Js.sameLower (Fonts.relOf p) "Lato.otf" = true
    /\ mime = "font/otf".
Proof.
  intros fs.
  destruct (fontsRoute_first_extension_wins fs "Lato" [".ttf"] ".otf"
              [".woff"; ".woff2"] "LATO.otf")
    as (mime & p & H1 & H2 & H3).
  - reflexivity.
  - reflexivity.
  - discriminate.
  - intros f' e' [<-|[<-|[<-|[]]]] [<-|[]]; reflexivity.
  - right; left; reflexivity.
  - reflexivity.
  - exists mime, p. split; [exact H1|]. split; [exact H2|].
    inversion H3. reflexivity.
Defined.

Lemma stripExtension_strips_plain stem e :
  Path.hasSeparator stem = false -> stem <> EmptyString ->
  In e Fonts.extensions ->
  Fonts.stripExtension (stem ++ e) = stem.
Proof.
  intros Hs Hne He.
  destruct (extension_shape e e He (extensions_lower e He))
    as (t & -> & Ht & Htne).
  unfold Fonts.stripExtension.
  rewrite extname_with_extension by assumption.
  rewrite (extensions_lower _ He).
  apply includes_In in He. rewrite He.
  apply basename_strip; [|exact Hne|discriminate].
  now apply hasSeparator_with_extension.
Qed.

(** X8. Stripping undoes appending: a non-empty separator-free name
    followed by one of the four extensions, spelt in lower case, is
    stripped back to the name. *)
Theorem stripExtension_strips stem e :
  Path.hasSeparator stem = false -> stem <> EmptyString ->
  In e Fonts.extensions ->
  Fonts.stripExtension (stem ++ e) = stem.
Proof.
  intros Hs Hne He.
  destruct (extension_shape e e He (extensions_lower e He))
    as (t & -> & Ht & Htne).
  unfold Fonts.stripExtension.
  rewrite extname_with_extension by assumption.
  rewrite (extensions_lower _ He).
  apply includes_In in He. rewrite He.
  apply basename_strip; [|exact Hne|discriminate].
  now apply hasSeparator_with_extension.
Qed.

Lemma stripExtension_strips_witness :
  Path.hasSeparator "Open Sans" = false
  /\ In ".woff" Fonts.extensions
  /\ Fonts.stripExtension ("Open Sans" ++ ".woff") = "Open Sans".
Proof.
  split; [reflexivity|].
  assert (H : In ".woff" Fonts.extensions) by (simpl; auto).
  split; [exact H|].
  apply stripExtension_strips; [reflexivity | discriminate | exact H].
Defined.

(** X9. The extension is recognised whatever its case but removed only
    when in lower case: a request ending in, say, .TTF keeps its
    extension, the loop looks for the name with a second extension, and
    the directory that holds just that font, in any case, gives 404. *)
Theorem uppercase_extension_is_not_stripped fs stem E f :
  Path.hasSeparator stem = false -> stem <> EmptyString ->
  In (Js.toLowerCase E) Fonts.extensions -> E <> Js.toLowerCase E ->
  Fs.listing fs = Some [f] -> Js.sameLower f (stem ++ E) = true ->
  Fonts.stripExtension (stem ++ E) = stem ++ E
  /\ fst (Fonts.fontsRoute (stem ++ E) fs)
     = Fs.Returned (Fonts.Status404 "Font not found").
Proof.
  intros Hs Hne He Hcase Hl Hsame.
  destruct (extension_shape E _ He eq_refl) as (t & -> & Ht & Htne).
  assert (Hx : Path.hasSeparator (stem ++ String "." t) = false)
    by now apply hasSeparator_with_extension.
  assert (Hstrip : Fonts.stripExtension (stem ++ String "." t)
                   = stem ++ String "." t).
  { unfold Fonts.stripExtension.
    rewrite extname_with_extension by assumption.
    apply includes_In in He. rewrite He.
    apply basename_keep; [exact Hx|].
    unfold Js.endsWith. rewrite length_append, toLowerCase_length.
    replace (String.length stem + String.length (String "." t)
             - String.length (String "." t))
      with (String.length stem) by lia.
    rewrite substring_suffix.
    destruct (String.eqb_spec (String "." t)
                (Js.toLowerCase (String "." t))); [now elim Hcase|].
    apply andb_false_r. }
  split; [exact Hstrip|].
  rewrite fontsRoute_result, Hstrip.
  rewrite tryExtensions_none; [reflexivity| |].
  - intros e He'. apply present_plain_false.
    + now apply plainName_with_extension.
    + unfold Ref.filesOf. rewrite Hl. intros g [<-|[]].
      apply eqb_length_differs.
      apply String.eqb_eq in Hsame. rewrite Hsame.
      rewrite !toLowerCase_length, !length_append.
      simpl in He'. destruct He' as [<-|[<-|[<-|[<-|[]]]]]; simpl; lia.
  - unfold Ref.filesOf. rewrite Hl. intros g e [<-|[]] He'.
    apply eqb_length_differs.
    apply String.eqb_eq in Hsame. rewrite Hsame.
    rewrite !toLowerCase_length, !length_append.
    simpl in He'. destruct He' as [<-|[<-|[<-|[<-|[]]]]]; simpl; lia.
Qed.

Lemma uppercase_extension_is_not_stripped_witness :
  let fs := {| Fs.listing := Some ["myfont.ttf"];
               Fs.caseInsensitive := false;
               Fs.elsewhere := fun _ => false |} in
  Fonts.stripExtension ("MyFont" ++ ".TTF") = "MyFont.TTF"
  /\ fst (Fonts.fontsRoute ("MyFont" ++ ".TTF") fs)
     = Fs.Returned (Fonts.Status404 "Font not found")
  /\ fst (Fonts.fontsRoute "MyFont.ttf" fs)
     = Fs.Returned (Fonts.Stream "font/ttf" (Fs.InFontsDir "myfont.ttf")).
Proof.
  intros fs.
  destruct (uppercase_extension_is_not_stripped fs "MyFont" ".TTF"
              "myfont.ttf") as [H1 H2];
    try reflexivity; try discriminate; [simpl; auto|].
  split; [exact H1|]. split; [exact H2 | reflexivity].
Defined.

Lemma stripExtension_without_extension font :
  Fonts.includes Fonts.extensions (Js.toLowerCase (Path.extname font)) = false ->
  Fonts.stripExtension font = font.
Proof. unfold Fonts.stripExtension. now intros ->. Qed.

Lemma filesOf_listing fs f :
  In f (Ref.filesOf fs) ->
  exists files, Fs.listing fs = Some files /\ In f files.
Proof.
  unfold Ref.filesOf. destruct (Fs.listing fs) as [files|]; [|intros []].
  intros H. now exists files.
Qed.

(** X10. Start-up validation and the route agree.  For a font name that
    is not empty, holds no separator, carries no font extension and is not
    itself the spelling of one, over a directory of plain file names: the
    route serves every name the validation accepts from the directory, and
    the validation accepts every name the route serves. *)
Theorem validateFont_agrees_with_route fs font :
  Obs.plainListing fs ->
  Path.hasSeparator font = false -> font <> EmptyString ->
  Fonts.includes Fonts.extensions (Js.toLowerCase (Path.extname font)) = false ->
  ~ In (Js.toLowerCase font) Fonts.extensions ->
  (Js.toLowerCase font <> "arial" ->
   fst (Fonts.validateFont font fs) = Fs.Returned true ->
   Obs.isStream (fst (Fonts.fontsRoute font fs)) = true)
  /\ (Obs.isStream (fst (Fonts.fontsRoute font fs)) = true ->
      fst (Fonts.validateFont font fs) = Fs.Returned true).
Proof.
  intros Hplain Hs Hne Hnoext Hnotext.
  pose proof (stripExtension_without_extension font Hnoext) as Hstrip.
  split.
  - (* accepted at start-up, hence served *)
    intros Harial Hvalid. rewrite validateFont_result in Hvalid.
    destruct (String.eqb_spec (Js.toLowerCase font) "arial") as [E|_];
      [now elim Harial|].
    destruct (Fs.listing fs) as [files|] eqn:Hl; [|discriminate].
    assert (Hex : existsb (fun name => Js.sameLower name font)
                    (map (fun f => Path.basename f (Path.extname f))
                       (filter Fonts.isFontFile files)) = true)
      by congruence.
    clear Hvalid.
    apply existsb_exists in Hex as (name & Hname & Hsame).
    apply in_map_iff in Hname as (f & <- & Hf).
    apply filter_In in Hf as [Hf Hfont].
    assert (Hf' : In f (Ref.filesOf fs))
      by (unfold Ref.filesOf; now rewrite Hl).
    assert (Hfs : Path.hasSeparator f = false).
    { specialize (Hplain f Hf'). unfold Fs.plainName in Hplain.
      destruct (Path.hasSeparator f); [discriminate | reflexivity]. }
    destruct (fontName_of_entry f Hfs Hfont)
      as (stem & E & e & Hsplit & He & HE & Hbase).
    rewrite Hbase in Hsame.
    destruct (String.eqb_spec stem EmptyString) as [Hempty|Hstem].
    + (* the entry is a bare extension *)
      exfalso. apply Hnotext. subst stem. simpl in Hsplit. subst f.
      apply String.eqb_eq in Hsame. now rewrite <- Hsame, HE.
    + assert (Hmatch : Js.sameLower f (font ++ e) = true).
      { unfold Js.sameLower in *. apply String.eqb_eq in Hsame.
        rewrite Hsplit, !toLowerCase_app, Hsame, HE,
          (extensions_lower e He). apply String.eqb_refl. }
      destruct (tryExtensions_some fs font Fonts.extensions f e
                  Hf' He Hmatch) as [p Hp].
      rewrite fontsRoute_result, Hstrip, Hp. reflexivity.
  - (* served, hence accepted at start-up *)
    intros Hserved. rewrite fontsRoute_result, Hstrip in Hserved.
    destruct (fst (Fonts.tryExtensions font Fonts.extensions fs))
      as [[p|]|c] eqn:Hloop; try discriminate.
    apply tryExtensions_found in Hloop as (e & He & Hcase).
    apply found_entry in Hcase as (f & Hf & Hmatch);
      [|now apply plainName_with_extension].
    rewrite validateFont_result.
    destruct (Js.toLowerCase font =? "arial"); [reflexivity|].
    destruct (filesOf_listing fs f Hf) as (files & Hl & Hin).
    rewrite Hl. f_equal. apply existsb_exists.
    assert (Hfs : Path.hasSeparator f = false).
    { specialize (Hplain f Hf). unfold Fs.plainName in Hplain.
      destruct (Path.hasSeparator f); [discriminate | reflexivity]. }
    destruct (entry_matching_name f font e Hfs Hne He Hmatch)
      as (Hfont & Hname & _).
    exists (Path.basename f (Path.extname f)). split; [|exact Hname].
    apply (in_map (fun g => Path.basename g (Path.extname g))).
    apply filter_In. now split.
Qed.

Lemma validateFont_agrees_with_route_witness :
  let fs := {| Fs.listing := Some ["README.md"; "Comic-Sans.WOFF"];
               Fs.caseInsensitive := false;
               Fs.elsewhere := fun _ => false |} in
  fst (Fonts.validateFont "comic-sans" fs) = Fs.Returned true
  /\ Obs.isStream (fst (Fonts.fontsRoute "comic-sans" fs)) = true.
Proof.
  intros fs.
  assert (Hv : fst (Fonts.validateFont "comic-sans" fs) = Fs.Returned true)
    by reflexivity.
  split; [exact Hv|].
  apply (validateFont_agrees_with_route fs "comic-sans").
  - intros f [<-|[<-|[]]]; reflexivity.
  - reflexivity.
  - discriminate.
  - reflexivity.
  - simpl. intros [H|[H|[H|[H|[]]]]]; discriminate H.
  - discriminate.
  - exact Hv.
Defined.

Lemma existsb_ext {A : Type} (p q : A -> bool) l :
  (forall x, p x = q x) -> existsb p l = existsb q l.
Proof.
  intros H. induction l as [|x xs IH]; simpl; [reflexivity|].
  now rewrite H, IH.
Qed.

(** X11. Start-up validation does not depend on the case of the
    requested name: it gives the same verdict, after the same [fs] calls,
    for a name and for its lower-case form. *)
Theorem validateFont_ignores_case fs font :
  Fonts.validateFont (Js.toLowerCase font) fs = Fonts.validateFont font fs.
Proof.
  unfold Fonts.validateFont. rewrite toLowerCase_idem.
  destruct (Js.toLowerCase font =? "arial"); [reflexivity|].
  unfold Fs.bind. destruct (Fs.existsSync Fs.FontsDir fs) as [[there|c] t];
    [|reflexivity].
  destruct (negb there); [reflexivity|].
  destruct (Fs.readdirSync Fs.FontsDir fs) as [[files|c] t'];
    [|reflexivity].
  erewrite existsb_ext; [reflexivity|].
  intros name. unfold Js.sameLower. now rewrite toLowerCase_idem.
Qed.

(** ** Start-up *)

Section CheckFacts.

Variable lt le : Js.JsNumber -> Js.JsNumber -> bool.

Lemma validateFont_verdict fs font :
  exists b calls, Fonts.validateFont font fs = (Fs.Returned b, calls).
Proof.
  destruct (validateFont_returns fs font) as [b Hb].
  destruct (Fonts.validateFont font fs) as [r calls]. simpl in Hb.
  subst r. eauto.
Qed.

(** What the callback comes to: the fonts take no part in the decision
    to throw. *)
Lemma check_result argv fs :
  fst (Startup.check lt le argv fs)
  = if (0 <? List.length (Startup.parameterErrors lt le argv))%nat
    then Fs.Thrown
           (String.concat Startup.newline
              (Startup.parameterErrors lt le argv))
    else
      Fs.Returned
        {| Startup.port := Startup.port argv;
           Startup.username := Startup.username argv;
           Startup.height := Startup.height argv;
           Startup.seconds := Startup.seconds argv;
           Startup.font :=
             match fst (Fonts.validateFont (Startup.font argv) fs) with
             | Fs.Returned true => Startup.font argv
             | _ => "Arial"
             end;
           Startup.namefont :=
             match fst (Fonts.validateFont (Startup.namefont argv) fs) with
             | Fs.Returned true => Startup.namefont argv
             | _ => "Arial"
             end |}.
Proof.
  unfold Startup.check, Fs.bind.
  destruct (validateFont_verdict fs (Startup.font argv)) as (b1 & t1 & ->).
  destruct (validateFont_verdict fs (Startup.namefont argv))
    as (b2 & t2 & ->).
  simpl fst.
  destruct (0 <? List.length (Startup.parameterErrors lt le argv))%nat;
    destruct b1, b2; reflexivity.
Qed.

(** X12. With the fonts path absent or a directory that can be listed,
    whether the callback throws, and with which message, is decided by
    port, username, height and seconds alone: no font name and no such
    state of the fonts directory makes start-up fail or lets it pass. *)
Theorem check_throws_on_parameters_only p u h s f n f' n' fs fs' :
  Obs.absentOrListable fs -> Obs.absentOrListable fs' ->
  match
    fst (Startup.check lt le
           {| Startup.port := p; Startup.username := u;
              Startup.height := h; Startup.seconds := s;
              Startup.font := f; Startup.namefont := n |} fs),
    fst (Startup.check lt le
           {| Startup.port := p; Startup.username := u;
              Startup.height := h; Startup.seconds := s;
              Startup.font := f'; Startup.namefont := n' |} fs')
  with
  | Fs.Thrown m, Fs.Thrown m' => m = m'
  | Fs.Returned a, Fs.Returned a' =>
      Startup.port a = Startup.port a'
      /\ Startup.username a = Startup.username a'
      /\ Startup.height a = Startup.height a'
      /\ Startup.seconds a = Startup.seconds a'
  | _, _ => False
  end.
Proof.
  intros Hfs Hfs'.
  unfold Startup.check, Fs.bind. cbn [Startup.font Startup.namefont].
  destruct (validateFont_listable fs f Hfs) as (b1 & t1 & ->).
  destruct (validateFont_listable fs n Hfs) as (b2 & t2 & ->).
  destruct (validateFont_listable fs' f' Hfs') as (b3 & t3 & ->).
  destruct (validateFont_listable fs' n' Hfs') as (b4 & t4 & ->).
  change (Startup.parameterErrors lt le
            {| Startup.port := p; Startup.username := u;
               Startup.height := h; Startup.seconds := s;
               Startup.font := f'; Startup.namefont := n' |})
    with (Startup.parameterErrors lt le
            {| Startup.port := p; Startup.username := u;
               Startup.height := h; Startup.seconds := s;
               Startup.font := f; Startup.namefont := n |}).
  destruct (0 <? _)%nat; simpl; auto.
Qed.

Lemma validateFont_Arial fs :
  fst (Fonts.validateFont "Arial" fs) = Fs.Returned true.
Proof. reflexivity. Qed.

Lemma check_returned argv fs argv' :
  fst (Startup.check lt le argv fs) = Fs.Returned argv' ->
  Startup.parameterErrors lt le argv = []
  /\ Startup.port argv' = Startup.port argv
  /\ Startup.username argv' = Startup.username argv
  /\ Startup.height argv' = Startup.height argv
  /\ Startup.seconds argv' = Startup.seconds argv
  /\ (Startup.font argv' = Startup.font argv
      \/ Startup.font argv' = "Arial")
  /\ (Startup.namefont argv' = Startup.namefont argv
      \/ Startup.namefont argv' = "Arial")
  /\ fst (Fonts.validateFont (Startup.font argv') fs) = Fs.Returned true
  /\ fst (Fonts.validateFont (Startup.namefont argv') fs) = Fs.Returned true.
Proof.
  rewrite check_result.
  destruct (Startup.parameterErrors lt le argv) as [|m ms] eqn:E;
    [|discriminate].
  simpl. intros H. inversion H; subst; clear H. simpl.
  repeat (split; [reflexivity|]).
  destruct (fst (Fonts.validateFont (Startup.font argv) fs))
    as [[|]|c] eqn:E1;
    destruct (fst (Fonts.validateFont (Startup.namefont argv) fs))
      as [[|]|c'] eqn:E2;
    repeat split; auto using validateFont_Arial.
Qed.

(** X13. When the callback returns, the parameters are as given and each
    of the two fonts is either the one asked for or "Arial", and in both
    cases a name that validation accepts on the same directory: the
    callback never leaves a font that failed validation. *)
Theorem check_leaves_valid_fonts argv fs argv' :
  fst (Startup.check lt le argv fs) = Fs.Returned argv' ->
  Startup.parameterErrors lt le argv = []
  /\ Startup.port argv' = Startup.port argv
  /\ Startup.username argv' = Startup.username argv
  /\ Startup.height argv' = Startup.height argv
  /\ Startup.seconds argv' = Startup.seconds argv
  /\ (Startup.font argv' = Startup.font argv
      \/ Startup.font argv' = "Arial")
  /\ (Startup.namefont argv' = Startup.namefont argv
      \/ Startup.namefont argv' = "Arial")
  /\ fst (Fonts.validateFont (Startup.font argv') fs) = Fs.Returned true
  /\ fst (Fonts.validateFont (Startup.namefont argv') fs) = Fs.Returned true.
Proof.
  rewrite check_result.
  destruct (Startup.parameterErrors lt le argv) as [|m ms] eqn:E;
    [|discriminate].
  simpl. intros H. inversion H; subst; clear H. simpl.
  repeat (split; [reflexivity|]).
  destruct (fst (Fonts.validateFont (Startup.font argv) fs))
    as [[|]|c] eqn:E1;
    destruct (fst (Fonts.validateFont (Startup.namefont argv) fs))
      as [[|]|c'] eqn:E2;
    repeat split; auto using validateFont_Arial.
Qed.

(** X18. From the command line to the client: when the callback returns,
    every client accepted afterwards is sent, first, settings that carry
    the height and seconds given and two fonts that validation accepts on
    the directory as it was at start-up. *)
Theorem clients_are_sent_the_checked_settings argv fs argv' events sid :
  fst (Startup.check lt le argv fs) = Fs.Returned argv' ->
  sid < Relay.nextId (Relay.run (Startup.settingsOf argv') events) ->
  exists chats,
    Relay.received sid (Relay.run (Startup.settingsOf argv') events)
    = Relay.Settings (Startup.settingsOf argv')
      :: map Relay.ChatMessage chats
    /\ Relay.viewportHeight (Startup.settingsOf argv') = Startup.height argv
    /\ Relay.messageSeconds (Startup.settingsOf argv')
       = Startup.seconds argv
    /\ fst (Fonts.validateFont
              (Relay.messageFont (Startup.settingsOf argv')) fs)
       = Fs.Returned true
    /\ fst (Fonts.validateFont
              (Relay.namefont (Startup.settingsOf argv')) fs)
       = Fs.Returned true.
Proof.
  intros Hcheck Hsid.
  destruct (check_returned argv fs argv' Hcheck)
    as (_ & _ & _ & Hh & Hs & _ & _ & Hf & Hn).
  destruct (run_handshaken (Startup.settingsOf argv') events)
    as (_ & _ & Hsome).
  destruct (Hsome sid Hsid) as [chats Hrec].
  exists chats. simpl. auto.
Qed.

End CheckFacts.

Lemma check_throws_on_parameters_only_witness :
  let lt := fun a b : Js.JsNumber =>
              match a, b with
              | Js.Finite false m 0, Js.Finite false n 0 => (m <? n)%N
              | _, _ => false
              end in
  let le := fun a b : Js.JsNumber =>
              match a, b with
              | Js.Finite false m 0, Js.Finite false n 0 => (m <=? n)%N
              | _, _ => false
              end in
  let fs := {| Fs.listing := None; Fs.caseInsensitive := false;
               Fs.elsewhere := fun _ => false |} in
  let fs' := {| Fs.listing := Some ["lato.ttf"];
                Fs.caseInsensitive := false;
                Fs.elsewhere := fun _ => false |} in
  Obs.absentOrListable fs /\ Obs.absentOrListable fs'
  /\ fst (Startup.check lt le
            {| Startup.port := Js.ofN 3005;
               Startup.username := "some_channel";
               Startup.height := Js.ofN 50;
               Startup.seconds := Js.ofN 30;
               Startup.font := "Lato"; Startup.namefont := "Missing" |} fs)
     = Fs.Thrown "Height must be between 100 and 2160 pixels"
  /\ match
       fst (Startup.check lt le
              {| Startup.port := Js.ofN 3005;
                 Startup.username := "some_channel";
                 Startup.height := Js.ofN 50;
                 Startup.seconds := Js.ofN 30;
                 Startup.font := "Lato"; Startup.namefont := "Missing" |} fs),
       fst (Startup.check lt le
              {| Startup.port := Js.ofN 3005;
                 Startup.username := "some_channel";
                 Startup.height := Js.ofN 50;
                 Startup.seconds := Js.ofN 30;
                 Startup.font := "Lato"; Startup.namefont := "Arial" |} fs')
     with
     | Fs.Thrown m, Fs.Thrown m' => m = m'
     | Fs.Returned a, Fs.Returned a' =>
         Startup.port a = Startup.port a'
         /\ Startup.username a = Startup.username a'
         /\ Startup.height a = Startup.height a'
         /\ Startup.seconds a = Startup.seconds a'
     | _, _ => False
     end.
Proof.
  intros lt le fs fs'.
  assert (Hfs : Obs.absentOrListable fs) by (left; reflexivity).
  assert (Hfs' : Obs.absentOrListable fs')
    by (right; exists ["lato.ttf"]; reflexivity).
  split; [exact Hfs|]. split; [exact Hfs'|]. split; [reflexivity|].
  exact (check_throws_on_parameters_only lt le
           (Js.ofN 3005) "some_channel" (Js.ofN 50) (Js.ofN 30)
           "Lato" "Missing" "Lato" "Arial" fs fs' Hfs Hfs').
Defined.

Lemma check_leaves_valid_fonts_witness :
  let lt := fun _ _ : Js.JsNumber => false in
  let argv := {| Startup.port := Js.ofN 3005;
                 Startup.username := "some_channel";
                 Startup.height := Js.ofN 1080;
                 Startup.seconds := Js.ofN 30;
                 Startup.font := "Lato";
                 Startup.namefont := "Missing" |} in
  let fs := {| Fs.listing := Some ["lato.ttf"];
               Fs.caseInsensitive := false;
               Fs.elsewhere := fun _ => false |} in
  exists argv',
    fst (Startup.check lt lt argv fs) = Fs.Returned argv'
    /\ Startup.font argv' = "Lato"
    /\ Startup.namefont argv' = "Arial"
    /\ fst (Fonts.validateFont (Startup.font argv') fs) = Fs.Returned true
    /\ fst (Fonts.validateFont (Startup.namefont argv') fs)
       = Fs.Returned true.
Proof.
  intros lt argv fs.
  eexists. split; [reflexivity|]. split; [reflexivity|].
  split; [reflexivity|].
  pose proof (check_leaves_valid_fonts lt lt argv fs _ eq_refl) as H.
  split; apply H.
Defined.

Lemma clients_are_sent_the_checked_settings_witness :
  let lt := fun _ _ : Js.JsNumber => false in
  let argv := {| Startup.port := Js.ofN 3005;
                 Startup.username := "some_channel";
                 Startup.height := Js.ofN 1080;
                 Startup.seconds := Js.ofN 30;
                 Startup.font := "Lato";
                 Startup.namefont := "Missing" |} in
  let fs := {| Fs.listing := Some ["lato.ttf"];
               Fs.caseInsensitive := false;
               Fs.elsewhere := fun _ => false |} in
  let argv' := {| Startup.port := Js.ofN 3005;
                  Startup.username := "some_channel";
                  Startup.height := Js.ofN 1080;
                  Startup.seconds := Js.ofN 30;
                  Startup.font := "Lato";
                  Startup.namefont := "Arial" |} in
  fst (Startup.check lt lt argv fs) = Fs.Returned argv'
  /\ 0 < Relay.nextId
           (Relay.run (Startup.settingsOf argv') [Relay.Connection])
  /\ exists chats,
      Relay.received 0
        (Relay.run (Startup.settingsOf argv') [Relay.Connection])
      = Relay.Settings (Startup.settingsOf argv')
        :: map Relay.ChatMessage chats.
Proof.
  intros lt argv fs argv'.
  assert (H1 : fst (Startup.check lt lt argv fs) = Fs.Returned argv')
    by reflexivity.
  assert (H2 : 0 < Relay.nextId
                     (Relay.run (Startup.settingsOf argv')
                        [Relay.Connection])) by (simpl; lia).
  split; [exact H1|]. split; [exact H2|].
  destruct (clients_are_sent_the_checked_settings lt lt argv fs argv'
              [Relay.Connection] 0 H1 H2) as (chats & Hrec & _).
  now exists chats.
Defined.

(** ** Position tokens: decimal offsets *)

Lemma split_plain field :
  Obs.noHyphen field = true -> Js.split "-" field = [field].
Proof.
  unfold Obs.noHyphen.
  induction field as [|c r IH]; simpl; [reflexivity|].
  intros H. apply andb_true_iff in H as [Hc Hr].
  apply negb_true_iff in Hc. rewrite Hc, (IH Hr). reflexivity.
Qed.

Lemma split_at_hyphen field rest :
  Obs.noHyphen field = true ->
  Js.split "-" (field ++ String "-" rest) = field :: Js.split "-" rest.
Proof.
  unfold Obs.noHyphen.
  induction field as [|c r IH]; simpl; [reflexivity|].
  intros H. apply andb_true_iff in H as [Hc Hr].
  apply negb_true_iff in Hc. rewrite Hc, (IH Hr). reflexivity.
Qed.

Lemma readDigits_digit base c k l :
  Js.digitValue base c = Some k ->
  fst (Js.readDigits base (c :: l)) = k :: fst (Js.readDigits base l).
Proof.
  intros H. simpl. rewrite H. now destruct (Js.readDigits base l).
Qed.

Lemma uint_digits (d : Decimal.uint) :
  forallb (fun c => match Js.digitValue 10 c with
                    | Some _ => true
                    | None => false
                    end)
    (list_ascii_of_string (DecimalString.NilEmpty.string_of_uint d)) = true.
Proof. induction d; simpl; auto. Qed.

(** Reading the spelling of a decimal back, most significant digit
    first, gives its value. *)
Lemma uint_value (d : Decimal.uint) acc :
  fold_left (fun a x => (a * 10 + x)%N)
    (fst (Js.readDigits 10
            (list_ascii_of_string
               (DecimalString.NilEmpty.string_of_uint d)))) acc
  = (DecimalPos.Unsigned.of_lu (Decimal.rev d)
     + acc * 10 ^ DecimalPos.Unsigned.usize d)%N.
Proof.
  revert acc. induction d; intros acc;
    [simpl; now rewrite N.mul_1_r | ..];
    cbn [DecimalString.NilEmpty.string_of_uint list_ascii_of_string
         DecimalPos.Unsigned.usize];
    (erewrite readDigits_digit by reflexivity);
    cbn [fold_left]; rewrite IHd;
    match goal with
    | |- context [Decimal.rev (?c d)] =>
        change (Decimal.rev (c d)) with (Decimal.revapp d (c Decimal.Nil));
        rewrite (DecimalPos.Unsigned.of_lu_revapp d (c Decimal.Nil))
    end;
    match goal with
    | |- context [(N_of_ascii ?c - 48)%N] =>
        let v := eval vm_compute in (N_of_ascii c - 48)%N in
        change (N_of_ascii c - 48)%N with v
    end;
    cbn [DecimalPos.Unsigned.of_lu]; rewrite N.pow_succ_r'; ring.
Qed.

Lemma to_uint_nonnil n : N.to_uint n <> Decimal.Nil.
Proof.
  destruct n as [|p]; [discriminate|].
  apply DecimalPos.Unsigned.to_uint_nonnil.
Qed.

Lemma decimal_spelling n :
  Obs.decimal n = DecimalString.NilEmpty.string_of_uint (N.to_uint n)
  /\ Obs.decimal n <> EmptyString.
Proof.
  unfold Obs.decimal. pose proof (to_uint_nonnil n) as H.
  destruct (N.to_uint n); [now elim H | ..]; split; (reflexivity || discriminate).
Qed.

Lemma decimal_digitString n : Ref.digitString (Obs.decimal n) = true.
Proof.
  destruct (decimal_spelling n) as [E Hne].
  unfold Ref.digitString, Js.allDecimal. apply andb_true_iff. split.
  - destruct (String.eqb_spec (Obs.decimal n) EmptyString);
      [now elim Hne | reflexivity].
  - rewrite E. apply uint_digits.
Qed.

Lemma decimal_value n : Ref.decimalValue (Obs.decimal n) = n.
Proof.
  destruct (decimal_spelling n) as [E _].
  unfold Ref.decimalValue, Js.digitsValue. rewrite E, uint_value.
  rewrite N.mul_0_l, N.add_0_r, <- DecimalPos.Unsigned.of_uint_alt.
  apply DecimalN.Unsigned.of_to.
Qed.

(** [Number] reads the decimal spelling of a natural number as the double
    nearest to it, and so reads it back when it is below 2^53. *)
Lemma Number_decimal n :
  Js.Number (Obs.decimal n) = Js.roundMVResult (Js.ofN n).
Proof.
  now rewrite Number_digitString, decimal_value by apply decimal_digitString.
Qed.

Lemma Number_decimal_exact n :
  (n < 2 ^ 53)%N -> Js.Number (Obs.decimal n) = Js.ofN n.
Proof. intros H. rewrite Number_decimal. now apply roundMVResult_exact. Qed.

Lemma forallb_impl {A : Type} (p q : A -> bool) l :
  (forall x, p x = true -> q x = true) ->
  forallb p l = true -> forallb q l = true.
Proof.
  intros H. induction l as [|x xs IH]; simpl; [reflexivity|].
  intros E. apply andb_true_iff in E as [Hx Hxs].
  now rewrite (H x Hx), (IH Hxs).
Qed.

Lemma decimal_noHyphen n : Obs.noHyphen (Obs.decimal n) = true.
Proof.
  pose proof (decimal_digitString n) as H.
  unfold Ref.digitString, Js.allDecimal in H.
  apply andb_true_iff in H as [_ H].
  unfold Obs.noHyphen. revert H. apply forallb_impl.
  intros c Hc. destruct (Js.digitValue 10 c) as [k|] eqn:E; [|discriminate].
  destruct (decimal_digit_facts c k E) as (_ & _ & -> & _). reflexivity.
Qed.

(** X14. A position token written as two decimal numbers below 2^53
    joined by a hyphen, the format Twitch sends, adds the span with exactly
    those two offsets.  (From 2^53 on a double no longer holds every
    integer, and the offset is the nearest one it holds.) *)
Theorem decimal_token_round_trip emoteId s e acc :
  (s < 2 ^ 53)%N -> (e < 2 ^ 53)%N ->
  Chat.pushPositions emoteId [Obs.decimal s ++ "-" ++ Obs.decimal e] acc
  = (acc ++ [{| Chat.id := emoteId;
                Chat.start := Js.Num (Js.ofN s);
                Chat.end_ := Js.Num (Js.ofN e) |}])%list.
Proof.
  intros Hs He.
  rewrite pushPositions_spec. simpl map. unfold Ref.spanOf, Chat.parsePosition.
  change ("-" ++ Obs.decimal e) with (String "-" (Obs.decimal e)).
  rewrite split_at_hyphen, split_plain by apply decimal_noHyphen.
  simpl. now rewrite !Number_decimal_exact.
Qed.

Lemma decimal_token_round_trip_witness :
  (0 < 2 ^ 53)%N /\ (9007199254740991 < 2 ^ 53)%N
  /\ Obs.decimal 9007199254740991 = "9007199254740991"
  /\ Chat.pushPositions "25" ["0-9007199254740991"] []
     = [{| Chat.id := "25";
           Chat.start := Js.Num (Js.ofN 0);
           Chat.end_ := Js.Num (Js.ofN 9007199254740991) |}].
Proof.
  split; [reflexivity|]. split; [reflexivity|]. split; [reflexivity|].
  exact (decimal_token_round_trip "25" 0 9007199254740991 []
           eq_refl eq_refl).
Defined.

(** X15. Only the text before the second hyphen of a token counts: what
    follows it changes nothing in the span. *)
Theorem fields_after_second_hyphen_ignored emoteId a b rest acc :
  Obs.noHyphen a = true -> Obs.noHyphen b = true ->
  Chat.pushPositions emoteId [a ++ "-" ++ b ++ "-" ++ rest] acc
  = Chat.pushPositions emoteId [a ++ "-" ++ b] acc.
Proof.
  intros Ha Hb. rewrite !pushPositions_spec. simpl map.
  unfold Ref.spanOf, Chat.parsePosition.
  change ("-" ++ b ++ "-" ++ rest) with (String "-" (b ++ String "-" rest)).
  change ("-" ++ b) with (String "-" b).
  rewrite (split_at_hyphen a (b ++ String "-" rest) Ha).
  rewrite (split_at_hyphen b rest Hb), (split_at_hyphen a b Ha).
  rewrite (split_plain b Hb). reflexivity.
Qed.

Lemma fields_after_second_hyphen_ignored_witness :
  Obs.noHyphen "0" = true /\ Obs.noHyphen "4" = true
  /\ Chat.pushPositions "25" ["0" ++ "-" ++ "4" ++ "-" ++ "9-x"] []
     = Chat.pushPositions "25" ["0" ++ "-" ++ "4"] [].
Proof.
  split; [reflexivity|]. split; [reflexivity|].
  apply fields_after_second_hyphen_ignored; reflexivity.
Defined.

(** ** Emote ids: the order of the spans *)

Section EnumerationOrder.

Context {V : Type}.

Lemma insertByIndex_sorted (e : N * (string * V)) l :
  Sorted (fun a b => (fst a <= fst b)%N) l ->
  Sorted (fun a b => (fst a <= fst b)%N) (Js.insertByIndex e l).
Proof.
  induction 1 as [|h t Ht IH Hhd]; simpl; [repeat constructor|].
  destruct (N.leb_spec (fst e) (fst h)) as [Hle|Hgt].
  - constructor; [now constructor | now constructor].
  - constructor; [exact IH|].
    destruct t as [|h' t']; simpl.
    + constructor. lia.
    + destruct (N.leb_spec (fst e) (fst h')); constructor; [lia|].
      now inversion Hhd.
Qed.

Lemma sorted_indexed (l : list (N * (string * V))) :
  Sorted (fun a b => (fst a <= fst b)%N) (fold_right Js.insertByIndex [] l).
Proof.
  induction l as [|h t IH]; simpl; [constructor|].
  now apply insertByIndex_sorted.
Qed.

Lemma indexed_index (o : Js.JsObject V) a :
  In a (Js.indexed o) ->
  Obs.indexOf (snd a) = fst a /\ Js.isIndexed (snd a) = true.
Proof.
  unfold Js.indexed. intros H. apply in_flat_map in H as (p & _ & Hp).
  unfold Obs.indexOf, Js.isIndexed.
  destruct (Js.arrayIndex (fst p)) as [i|] eqn:E; [|contradiction].
  destruct Hp as [<-|[]]. simpl. now rewrite E.
Qed.

Lemma Sorted_map_in {A B : Type} (R : A -> A -> Prop) (R' : B -> B -> Prop)
      (f : A -> B) l :
  (forall a b, In a l -> In b l -> R a b -> R' (f a) (f b)) ->
  Sorted R l -> Sorted R' (map f l).
Proof.
  intros H Hs. induction Hs as [|h t Ht IH Hhd]; simpl; [constructor|].
  constructor.
  - apply IH. intros a b Ha Hb. apply H; now right.
  - destruct Hhd as [|h' t' Hr]; simpl; constructor.
    apply H; [now left | right; now left | exact Hr].
Qed.

(** The properties with array-index keys, as the loop visits them. *)
Lemma forIn_numeric_part (o : Js.JsObject V) :
  exists numeric,
    Js.forIn o
    = (numeric ++ filter (fun p => negb (Js.isIndexed p)) o)%list
    /\ Permutation numeric (filter Js.isIndexed o)
    /\ Sorted (fun p q => (Obs.indexOf p <= Obs.indexOf q)%N) numeric.
Proof.
  exists (map snd (fold_right Js.insertByIndex [] (Js.indexed o))).
  split; [reflexivity|]. split.
  - rewrite (Permutation_map snd (sorted_indexed_perm (Js.indexed o))).
    now rewrite indexed_entries.
  - apply (Sorted_map_in (fun a b => (fst a <= fst b)%N));
      [|apply sorted_indexed].
    intros a b Ha Hb Hab.
    assert (Hin : forall x, In x (fold_right Js.insertByIndex []
                                    (Js.indexed o)) ->
                            In x (Js.indexed o)).
    { intros x Hx.
      apply (Permutation_in x (sorted_indexed_perm (Js.indexed o))), Hx. }
    destruct (indexed_index o a (Hin a Ha)) as [-> _].
    destruct (indexed_index o b (Hin b Hb)) as [-> _]. exact Hab.
Qed.

End EnumerationOrder.

(** X16. The spans are not in the order of the message: those of the ids
    that spell an array index come first, by ascending numeric id, and
    those of the other ids follow in the order tmi.js created them. *)
Theorem emote_spans_numeric_ids_first (o : Js.JsObject (list string)) :
  exists numeric,
    Chat.collectEmotes (Some o)
    = (Ref.spansInOrder numeric
       ++ Ref.spansInOrder (filter (fun p => negb (Js.isIndexed p)) o))%list
    /\ Permutation numeric (filter Js.isIndexed o)
    /\ Sorted (fun p q => (Obs.indexOf p <= Obs.indexOf q)%N) numeric.
Proof.
  destruct (forIn_numeric_part o) as (numeric & Hfor & Hperm & Hsorted).
  exists numeric. split; [|now split].
  unfold Chat.collectEmotes. rewrite collect_loop_spec, Hfor.
  unfold Ref.spansInOrder. now rewrite flat_map_app.
Qed.

(** ** The route: found or not, on either kind of volume *)

(** The route streams a file exactly when some entry equals, up to case,
    the name looked up followed by one of the four extensions. *)
Lemma fontsRoute_found_iff fs font :
  Path.hasSeparator (Fonts.stripExtension font) = false ->
  Obs.isStream (fst (Fonts.fontsRoute font fs)) = true
  <-> exists f e, In f (Ref.filesOf fs) /\ In e Fonts.extensions
                  /\ Js.sameLower f (Fonts.stripExtension font ++ e) = true.
Proof.
  intros Hs. rewrite fontsRoute_result. split.
  - destruct (fst (Fonts.tryExtensions _ _ fs)) as [[p|]|c] eqn:Hloop;
      try discriminate.
    intros _. apply tryExtensions_found in Hloop as (e & He & Hcase).
    apply found_entry in Hcase as (f & Hf & Hmatch);
      [|now apply plainName_with_extension].
    now exists f, e.
  - intros (f & e & Hf & He & Hmatch).
    destruct (tryExtensions_some fs _ Fonts.extensions f e Hf He Hmatch)
      as [p ->]. reflexivity.
Qed.

(** X17. For a name without separator, whether the route finds a file
    does not depend on the volume folding case or not: the scan of the
    directory makes a case-sensitive volume answer as a case-folding one
    does. *)
Theorem fontsRoute_same_on_either_volume files other other' font :
  Path.hasSeparator (Fonts.stripExtension font) = false ->
  Obs.isStream
    (fst (Fonts.fontsRoute font
            {| Fs.listing := files; Fs.caseInsensitive := false;
               Fs.elsewhere := other |}))
  = Obs.isStream
      (fst (Fonts.fontsRoute font
              {| Fs.listing := files; Fs.caseInsensitive := true;
                 Fs.elsewhere := other' |})).
Proof.
  intros Hs.
  apply eq_true_iff_eq.
  rewrite !fontsRoute_found_iff by exact Hs. reflexivity.
Qed.

Lemma fontsRoute_same_on_either_volume_witness :
  Path.hasSeparator (Fonts.stripExtension "Lato.ttf") = false
  /\ Obs.isStream
       (fst (Fonts.fontsRoute "Lato.ttf"
               {| Fs.listing := Some ["LATO.OTF"];
                  Fs.caseInsensitive := false;
                  Fs.elsewhere := fun _ => false |}))
     = Obs.isStream
         (fst (Fonts.fontsRoute "Lato.ttf"
                 {| Fs.listing := Some ["LATO.OTF"];
                    Fs.caseInsensitive := true;
                    Fs.elsewhere := fun _ => false |})).
Proof.
  split; [reflexivity|].
  apply fontsRoute_same_on_either_volume. reflexivity.
Defined.

(** ** Runs of the relay *)

Lemma connected_client_sees_every_message_witness :
  let cfg := {| Relay.viewportHeight := Js.ofN 1080;
                Relay.messageSeconds := Js.ofN 30;
                Relay.messageFont := "Arial";
                Relay.namefont := "Arial" |} in
  let tags := {| Chat.displayName := Js.TagString "Bob";
                 Chat.tagColor := Js.TagUndefined;
                 Chat.tagEmotes := None |} in
  let pre := [Relay.Connection; Relay.Message "c" tags "early" false] in
  let post := [Relay.Message "c" tags "one" false;
               Relay.Disconnect 0;
               Relay.Connection;
               Relay.Message "c" tags "two" true] in
  Relay.nextId (Relay.run cfg pre) = 1
  /\ Relay.received 1 (Relay.run cfg (pre ++ Relay.Connection :: post))
     = Relay.Settings cfg :: map Relay.ChatMessage (Obs.published post).
Proof.
  intros cfg tags pre post. split; [reflexivity|].
  apply (connected_client_sees_every_message cfg pre post).
  intros e [<-|[<-|[<-|[<-|[]]]]]; discriminate.
Defined.

Lemma nothing_sent_after_disconnect_witness :
  let cfg := {| Relay.viewportHeight := Js.ofN 1080;
                Relay.messageSeconds := Js.ofN 30;
                Relay.messageFont := "Arial";
                Relay.namefont := "Arial" |} in
  let tags := {| Chat.displayName := Js.TagString "Bob";
                 Chat.tagColor := Js.TagUndefined;
                 Chat.tagEmotes := None |} in
  let pre := [Relay.Connection; Relay.Message "c" tags "seen" false] in
  let post := [Relay.Message "c" tags "missed" false; Relay.Connection] in
  0 < Relay.nextId (Relay.run cfg pre)
  /\ Relay.received 0 (Relay.run cfg (pre ++ Relay.Disconnect 0 :: post))
     = Relay.received 0 (Relay.run cfg pre).
Proof.
  intros cfg tags pre post.
  assert (H : 0 < Relay.nextId (Relay.run cfg pre)) by (simpl; lia).
  split; [exact H|].
  exact (nothing_sent_after_disconnect cfg pre post 0 H).
Defined.

(** ** The first version of the route against the current one *)

Lemma string_of_list_ascii_app a b :
  string_of_list_ascii (a ++ b)
  = string_of_list_ascii a ++ string_of_list_ascii b.
Proof. induction a as [|c a IH]; simpl; [reflexivity | now rewrite IH]. Qed.

(** The extension of a plain name closes it, after a non-empty stem. *)
Lemma extname_closes_name x :
  Path.hasSeparator x = false -> Path.extname x <> EmptyString ->
  exists stem, x = stem ++ Path.extname x /\ stem <> EmptyString.
Proof.
  intros Hs. unfold Path.extname.
  rewrite lastComponentRev_plain by exact Hs.
  set (notDot := fun c => negb (Ascii.eqb c ".")).
  assert (Hsplit : forall l : list ascii,
             (Path.takeWhile notDot l ++ Path.dropWhile notDot l)%list = l).
  { induction l as [|c l IH]; simpl; [reflexivity|].
    destruct (notDot c); simpl; [now rewrite IH | reflexivity]. }
  assert (Hhead : forall l c r, Path.dropWhile notDot l = c :: r ->
                                c = "."%char).
  { induction l as [|y l IH]; simpl; intros c r E; [discriminate|].
    destruct (notDot y) eqn:Hy; [now apply (IH c r)|].
    inversion E; subst. unfold notDot in Hy.
    apply negb_false_iff, Ascii.eqb_eq in Hy. exact Hy. }
  assert (Hx : x = string_of_list_ascii (rev (rev (list_ascii_of_string x))))
    by now rewrite rev_involutive, string_of_list_ascii_of_string.
  remember (rev (list_ascii_of_string x)) as rc eqn:Hrc. clear Hrc.
  specialize (Hsplit rc).
  remember (Path.takeWhile notDot rc) as after eqn:Hafter. clear Hafter.
  destruct (Path.dropWhile notDot rc) as [|c [|y ys]] eqn:Hdrop;
    try (intros H; now elim H).
  rewrite (Hhead _ _ _ Hdrop) in *.
  destruct (String.eqb _ ".."); [intros H; now elim H|]. intros _.
  exists (string_of_list_ascii (rev (y :: ys))). split.
  - rewrite Hx at 1. rewrite <- Hsplit, rev_app_distr.
    change (rev ("."%char :: y :: ys))
      with (rev (y :: ys) ++ ["."%char])%list.
    rewrite <- app_assoc. now rewrite string_of_list_ascii_app.
  - intros E. apply (f_equal list_ascii_of_string) in E.
    rewrite list_ascii_of_string_of_list_ascii in E.
    apply (f_equal (@rev ascii)) in E. rewrite rev_involutive in E.
    discriminate E.
Qed.

(** X19. A request the first version of the route answered with a file is
    still answered with a file, provided its name holds no separator and
    its extension is spelt in lower case; the file may now be the one
    stored under an earlier extension of the list. *)
Theorem current_route_serves_what_the_first_did fs font mime p :
  Path.hasSeparator font = false ->
  Path.extname font = Js.toLowerCase (Path.extname font) ->
  fst (Legacy.fontsRoute true font fs)
  = Fs.Returned (Fonts.Stream mime p) ->
  Obs.isStream (fst (Fonts.fontsRoute font fs)) = true.
Proof.
  intros Hs Hlower Hlegacy.
  unfold Legacy.fontsRoute, Fs.bind, Fs.existsSync in Hlegacy.
  cbn [negb] in Hlegacy.
  destruct (Fs.present fs (Fs.InFontsDir font)) eqn:Hpresent;
    [|discriminate].
  destruct (Fonts.assoc (Js.toLowerCase (Path.extname font)) Fonts.mimeMap)
    as [m|] eqn:Hmime; [|discriminate].
  clear Hlegacy.
  assert (Hext : In (Path.extname font) Fonts.extensions).
  { rewrite <- Hlower in Hmime. unfold Fonts.assoc in Hmime.
    destruct (find _ Fonts.mimeMap) as [[k v]|] eqn:Hfind; [|discriminate].
    apply find_some in Hfind as [Hin Hk]. simpl in Hk.
    apply String.eqb_eq in Hk. subst k.
    simpl in Hin.
    destruct Hin as [E|[E|[E|[E|[]]]]]; inversion E; simpl; auto. }
  destruct (extname_closes_name font Hs) as (stem & Hfont & Hstem).
  { intros E. rewrite E in Hext. simpl in Hext.
    destruct Hext as [H|[H|[H|[H|[]]]]]; discriminate H. }
  assert (Hstems : Path.hasSeparator stem = false).
  { rewrite Hfont, hasSeparator_app in Hs.
    now apply orb_false_iff in Hs as [Hs _]. }
  assert (Hstrip : Fonts.stripExtension font = stem).
  { rewrite Hfont at 1. now apply stripExtension_strips_plain. }
  apply fontsRoute_found_iff; [now rewrite Hstrip|].
  rewrite Hstrip.
  assert (Hplain : Fs.plainName font = true).
  { rewrite Hfont. now apply plainName_with_extension. }
  unfold Fs.present, Fs.entryOf, Ref.filesOf in *.
  rewrite Hplain in Hpresent.
  destruct (Fs.listing fs) as [files|]; [|discriminate].
  destruct (find _ files) as [g|] eqn:Hg; [|discriminate].
  apply find_some in Hg as [Hg1 Hg2].
  exists g, (Path.extname font). split; [exact Hg1|]. split; [exact Hext|].
  rewrite <- Hfont. now apply sameName_sameLower in Hg2.
Qed.

Lemma current_route_serves_what_the_first_did_witness :
  let fs := {| Fs.listing := Some ["lato.otf"; "lato.ttf"];
               Fs.caseInsensitive := false;
               Fs.elsewhere := fun _ => false |} in
  fst (Legacy.fontsRoute true "lato.otf" fs)
  = Fs.Returned (Fonts.Stream "font/otf" (Fs.InFontsDir "lato.otf"))
  /\ Obs.isStream (fst (Fonts.fontsRoute "lato.otf" fs)) = true
  /\ fst (Fonts.fontsRoute "lato.otf" fs)
     = Fs.Returned (Fonts.Stream "font/ttf" (Fs.InFontsDir "lato.ttf")).
Proof.
  intros fs. split; [reflexivity|]. split; [|reflexivity].
  apply (current_route_serves_what_the_first_did fs "lato.otf"
           "font/otf" (Fs.InFontsDir "lato.otf")); reflexivity.
Defined.
